(** * HGDP + 1kG reference PCA pipeline: a shallow embedding

    Model of [hgdp_tgp_reference/hgdp_tgp_pca_intersection.py].  The
    script orchestrates four stages over Hail matrix tables: sample QC
    ([ref_filtering]), intersection with a target SNP list
    ([intersect_target_ref]), frequency filter and LD pruning
    ([ld_prune_filter]) and PCA with export ([run_pca]).

    Conventions of the model:
    - a matrix table is a list of columns (samples), a list of rows
      (variants) and, per row, one entry per column, in column order;
    - the file system is a finite map from paths to artifacts, threaded
      through every stage; a Hail [FatalError] is an explicit error
      value that leaves the files written so far in place;
    - [float64] quantities are idealised as rationals ([Q]);
    - Hail expressions are lazy: a table is only evaluated by [write],
      [checkpoint], [export] and by the eager library methods. *)

From Stdlib Require Import QArith ZArith Lia Ascii DecimalString.
From stdpp Require Import gmap strings list fin_maps.
Local Close Scope Q_scope.
Local Open Scope string_scope.

(** ** Strings *)

Module PyStr.

(** [str.lower] on the ASCII range; bytes above 127 (UTF-8 encoded
    non-ASCII text) are left alone, they never lower to an ASCII
    letter of the two recognised labels. *)
Definition lower_ascii (c : ascii) : ascii :=
  let n := Ascii.N_of_ascii c in
  if ((65 <=? n) && (n <=? 90))%N then Ascii.ascii_of_N (n + 32) else c.

Fixpoint lower (x : string) : string :=
  match x with
  | EmptyString => EmptyString
  | String c rest => String (lower_ascii c) (lower rest)
  end.

(** [x.startswith(p)] *)
Definition startswith (p x : string) : bool := String.prefix p x.

(** [re.sub('fail_', '', x)]: every non-overlapping occurrence of
    the literal pattern is deleted, scanning left to right. *)
Fixpoint re_sub_fail_ (x : string) : string :=
  match x with
  | String "f" (String "a" (String "i" (String "l" (String "_" rest)))) =>
      re_sub_fail_ rest
  | String c rest => String c (re_sub_fail_ rest)
  | EmptyString => EmptyString
  end.

(** [str(n)] for integers and the [f'PC{i}'] format. *)
Definition str_of_Z (n : Z) : string := NilEmpty.string_of_int (Z.to_int n).
Definition str_of_nat (n : nat) : string := NilEmpty.string_of_uint (Nat.to_uint n).

(** [sep.join(xs)] *)
Fixpoint join (sep : string) (xs : list string) : string :=
  match xs with
  | [] => ""
  | [x] => x
  | x :: rest => x ++ sep ++ join sep rest
  end.

End PyStr.

(** ** Data model *)

Inductive ReferenceGenome := GRCh37 | GRCh38.

#[global] Instance ReferenceGenome_eq_dec : EqDecision ReferenceGenome.
Proof. solve_decision. Defined.

Record Locus := mkLocus {
  contig : string;
  position : Z;
  reference_genome : ReferenceGenome
}.

#[global] Instance Locus_eq_dec : EqDecision Locus.
Proof. solve_decision. Defined.

(** Row key of a matrix table: [(locus, alleles)]. *)
Definition RowKey : Type := Locus * list string.

(** A diploid call: the two allele indices, 0 being the reference. *)
Record Call := mkCall { allele1 : nat; allele2 : nat }.

#[global] Instance Call_eq_dec : EqDecision Call.
Proof. solve_decision. Defined.

(** [GT.n_alt_alleles()]: the number of non-reference alleles. *)
Definition n_alt_alleles (c : Call) : Z :=
  (if decide (allele1 c = 0%nat) then 0 else 1) +
  (if decide (allele2 c = 0%nat) then 0 else 1).

(** A column: the sample id [s] and the part of the [sample_filters]
    struct the script reads; a Hail field may be missing. *)
Record Col := mkCol {
  s : string;
  qc_metrics_filters : option (gset string)
}.

#[global] Instance Col_eq_dec : EqDecision Col.
Proof. solve_decision. Defined.

(** A row: key, the variant [filters] set and the [GT] entries, one
    per column ([None] is a missing call). *)
Record Row := mkRow {
  locus : Locus;
  alleles : list string;
  filters : option (gset string);
  GT : list (option Call)
}.

#[global] Instance Row_eq_dec : EqDecision Row.
Proof. solve_decision. Defined.

Definition row_key (r : Row) : RowKey := (locus r, alleles r).

(** [sample_filters_fields] are the field names of the column struct
    [sample_filters], what iterating [mt['sample_filters']] yields. *)
Record MatrixTable := mkMT {
  sample_filters_fields : list string;
  cols : list Col;
  rows : list Row
}.

#[global] Instance MatrixTable_eq_dec : EqDecision MatrixTable.
Proof. solve_decision. Defined.

(** A line of the target SNP list after [hl.str(chr)], [hl.int(pos)]. *)
Record SnpEntry := mkSnp {
  chr : string;
  pos : Z;
  ref : string;
  alt : string
}.

(** Tables produced by the PCA stage. *)
Record ScoreRow := mkScore { score_s : string; scores : list Q }.

Record LoadingRow := mkLoading {
  loading_locus : Locus;
  loading_alleles : list string;
  loadings : list Q;
  pca_af : option Q
}.

(** Cells of an exported (or imported) text table. *)
Inductive Cell :=
| CStr (x : string)
| CFloat (x : Q)
| CArray (xs : list Q)
| CLocus (l : Locus)
| CStrs (xs : list string)
| CNA.

Record TextTable := mkText { header : list string; body : list (list Cell) }.

(** What a path of the file system can hold. *)
Inductive Artifact :=
| MatrixFile (mt : MatrixTable)
| ScoresFile (t : list ScoreRow)
| LoadingsFile (t : list LoadingRow)
| TextFile (t : TextTable).

Abbreviation Store := (gmap string Artifact).

Inductive HailError :=
| FileNotFound (path : string)
| FileAlreadyExists (path : string)
| NotAMatrixTable (path : string)
| NotATable (path : string)
| FieldNotFound (name : string)
| IndexOutOfBounds (i len : nat)
| LibraryFailure (msg : string).

(** ** State and error monad of a pipeline run *)

Definition Hail (A : Type) : Type := Store -> (HailError + A) * Store.

Definition ret {A} (a : A) : Hail A := fun st => (inr a, st).
Definition raise {A} (e : HailError) : Hail A := fun st => (inl e, st).
Definition bind {A B} (m : Hail A) (k : A -> Hail B) : Hail B :=
  fun st => match m st with
            | (inl e, st') => (inl e, st')
            | (inr a, st') => k a st'
            end.
Definition lift {A} (r : HailError + A) : Hail A := fun st => (r, st).

Declare Scope hail_scope.
Delimit Scope hail_scope with hail.
Notation "x <- m ;; k" := (bind m (fun x => k))
  (at level 100, m at next level, right associativity) : hail_scope.
Notation "m ;;; k" := (bind m (fun _ => k))
  (at level 100, right associativity) : hail_scope.

(** Sequencing of evaluation errors outside the store. *)
Definition and_then {A B} (r : HailError + A) (k : A -> HailError + B) : HailError + B :=
  match r with inl e => inl e | inr a => k a end.

Fixpoint traverse {A B} (f : A -> HailError + B) (xs : list A) : HailError + list B :=
  match xs with
  | [] => inr []
  | x :: xs' => and_then (f x) (fun y =>
                and_then (traverse f xs') (fun ys => inr (y :: ys)))
  end.

(** ** The Hail operations the script calls

    Modelled from the library's documented behaviour: filters keep
    the rows or columns on which the predicate is [True] (a missing
    predicate drops), [write] refuses an existing path unless
    [overwrite], and [checkpoint] writes and reads back, except that
    with [_read_if_exists] an existing path is read as it is. *)

Module hl.

Definition exists_ (path : string) (st : Store) : bool :=
  bool_decide (is_Some (st !! path)).

Definition read_matrix_table (path : string) : Hail MatrixTable :=
  fun st => match st !! path with
            | Some (MatrixFile mt) => (inr mt, st)
            | Some _ => (inl (NotAMatrixTable path), st)
            | None => (inl (FileNotFound path), st)
            end.

(** [t.write(path, overwrite)] for any native artifact. *)
Definition write (a : Artifact) (path : string) (overwrite : bool) : Hail unit :=
  fun st => if negb overwrite && exists_ path st
            then (inl (FileAlreadyExists path), st)
            else (inr tt, <[path := a]> st).

(** [mt.checkpoint(path, overwrite, _read_if_exists)] *)
Definition checkpoint (mt : MatrixTable) (path : string)
    (overwrite _read_if_exists : bool) : Hail MatrixTable :=
  fun st =>
    if negb _read_if_exists || negb (exists_ path st)
    then (_ <- write (MatrixFile mt) path overwrite ;; read_matrix_table path)%hail st
    else read_matrix_table path st.

(** [t.export(path)]: evaluates the table, then replaces the file. *)
Definition export (t : HailError + TextTable) (path : string) : Hail unit :=
  fun st => match t with
            | inl e => (inl e, st)
            | inr t => (inr tt, <[path := TextFile t]> st)
            end.

Definition import_table (path : string) : Hail TextTable :=
  fun st => match st !! path with
            | Some (TextFile t) => (inr t, st)
            | Some _ => (inl (NotATable path), st)
            | None => (inl (FileNotFound path), st)
            end.

Definition read_scores (path : string) : Hail (list ScoreRow) :=
  fun st => match st !! path with
            | Some (ScoresFile t) => (inr t, st)
            | Some _ => (inl (NotATable path), st)
            | None => (inl (FileNotFound path), st)
            end.

Definition read_loadings (path : string) : Hail (list LoadingRow) :=
  fun st => match st !! path with
            | Some (LoadingsFile t) => (inr t, st)
            | Some _ => (inl (NotATable path), st)
            | None => (inl (FileNotFound path), st)
            end.

(** A filter keeps an element only when the predicate is defined
    and true. *)
Definition keep (p : option bool) : bool :=
  match p with Some true => true | _ => false end.

Fixpoint mask_filter {A} (mask : list bool) (xs : list A) : list A :=
  match mask, xs with
  | b :: mask', x :: xs' =>
      if b then x :: mask_filter mask' xs' else mask_filter mask' xs'
  | _, _ => []
  end.

Definition filter_rows (mt : MatrixTable) (p : Row -> option bool) : MatrixTable :=
  {| sample_filters_fields := sample_filters_fields mt;
     cols := cols mt;
     rows := List.filter (fun r => keep (p r)) (rows mt) |}.

Definition filter_cols (mt : MatrixTable) (p : Col -> option bool) : MatrixTable :=
  let mask := map (fun c => keep (p c)) (cols mt) in
  {| sample_filters_fields := sample_filters_fields mt;
     cols := mask_filter mask (cols mt);
     rows := map (fun r => {| locus := locus r; alleles := alleles r;
                              filters := filters r;
                              GT := mask_filter mask (GT r) |}) (rows mt) |}.

(** [t.key_by(name)] on an imported text table, followed by key
    lookups: the defined values of the key column. *)
Fixpoint index_of (name : string) (hs : list string) : option nat :=
  match hs with
  | [] => None
  | h :: hs' => if String.eqb h name then Some 0%nat
                else S <$> index_of name hs'
  end.

Definition cell_str (c : Cell) : option string :=
  match c with CStr x => Some x | _ => None end.

Definition key_by_str (name : string) (t : TextTable) : HailError + list string :=
  match index_of name (header t) with
  | None => inl (FieldNotFound name)
  | Some i => inr (omap (fun line => line !! i ≫= cell_str) (body t))
  end.

(** [hl.locus(contig, pos, reference_genome)]; the coordinates of
    the SNP list are taken to be valid for their genome. *)
Definition locus (contig : string) (pos : Z) (rg : ReferenceGenome) : Locus :=
  mkLocus contig pos rg.

(** [xs[i]] on a Hail array: out of range is an error. *)
Definition index {A} (xs : list A) (i : nat) : HailError + A :=
  match xs !! i with
  | Some x => inr x
  | None => inl (IndexOutOfBounds i (length xs))
  end.

(** [hl.variant_str(locus, alleles)]: [contig:pos:ref:alt1,alt2,...],
    the locus as [hl.str] prints it, [alleles[0]] and the other alleles
    joined by commas; it fails on an empty allele array. *)
Definition variant_str (l : Locus) (al : list string) : HailError + string :=
  and_then (index al 0) (fun REF =>
    inr (contig l ++ ":" ++ PyStr.str_of_Z (position l) ++ ":" ++ REF ++ ":"
           ++ PyStr.join "," (drop 1 al))).

(** Aggregations over the defined entries of a row. *)
Definition called (gt : list (option Call)) : list Call := omap id gt.

Definition sum_Z (xs : list Z) : Z := foldr Z.add 0%Z xs.

(** [hl.agg.mean(x)]: missing when nothing is defined. *)
Definition agg_mean (xs : list Z) : option Q :=
  match length xs with
  | O => None
  | S n => Some (sum_Z xs # Pos.of_succ_nat n)%Q
  end.

(** [hl.variant_qc(mt).variant_qc.AF[0]]: the reference allele
    count [AC[0]] over the called allele number [AN], missing when no
    call is defined. *)
Definition n_ref_alleles (c : Call) : Z :=
  (if decide (allele1 c = 0%nat) then 1 else 0) +
  (if decide (allele2 c = 0%nat) then 1 else 0).

Definition variant_qc_AF0 (r : Row) : option Q :=
  match length (called (GT r)) with
  | O => None
  | S n => Some (sum_Z (map n_ref_alleles (called (GT r)))
                   # (2 * Pos.of_succ_nat n))%Q
  end.

(** Comparison operators on float expressions. *)
Definition gt (x y : Q) : bool := negb (Qle_bool x y).
Definition lt (x y : Q) : bool := negb (Qle_bool y x).

(** [a & b] on boolean expressions: a missing side is absorbed by
    a false one, otherwise the conjunction is missing. *)
Definition and_ (a b : option bool) : option bool :=
  match a, b with
  | Some x, Some y => Some (x && y)
  | Some false, None | None, Some false => Some false
  | _, _ => None
  end.

End hl.

(** ** The pipeline stages *)

(** Result of [hl.hwe_normalized_pca]: eigenvalues, the scores table
    (key [s]) and the loadings table (key [locus, alleles]). *)
Definition PcaOutput : Type := list Q * list ScoreRow * list (RowKey * list Q).

Section Pipeline.

(** The liftover chains registered by [load_liftover], as a map
    from a source and a destination genome and a coordinate to the
    lifted coordinate, if any. *)
Variable chain : ReferenceGenome -> ReferenceGenome -> string -> Z -> option (string * Z).

(** [hl.ld_prune(call_expr, r2, bp_window_size)]: the table of the
    variants to keep, keyed by [(locus, alleles)]. *)
Variable ld_prune : MatrixTable -> Q -> Z -> HailError + list RowKey.

(** [hl.hwe_normalized_pca(call_expr, k, compute_loadings=True)] *)
Variable hwe_normalized_pca : MatrixTable -> nat -> HailError + PcaOutput.

Definition load_liftover : ReferenceGenome * ReferenceGenome := (GRCh37, GRCh38).

(** [hl.liftover(locus, dest)] *)
Definition liftover (l : Locus) (dest : ReferenceGenome) : option Locus :=
  (fun cp => mkLocus cp.1 cp.2 dest)
    <$> chain (reference_genome l) dest (contig l) (position l).

(** *** ref_filtering *)

Definition all_sample_filters (mt : MatrixTable) : gset string :=
  list_to_set (sample_filters_fields mt).

Definition bad_sample_filters (mt : MatrixTable) : gset string :=
  set_map PyStr.re_sub_fail_
    (filter (fun x => PyStr.startswith "fail_" x = true) (all_sample_filters mt)).

(** The column predicate of line 19:
    [qc_metrics_filters.difference(bad_sample_filters).length() == 0] *)
Definition qc_pass (bad : gset string) (c : Col) : option bool :=
  (fun fs => bool_decide (size (fs ∖ bad) = 0%nat)) <$> qc_metrics_filters c.

(** Line 24: [mt_filt.filters.length() == 0] *)
Definition variant_pass (r : Row) : option bool :=
  (fun fs => bool_decide (size fs = 0%nat)) <$> filters r.

(** Line 25: [hl.is_defined(mt_unrel.cols()[mt_filt.s])] *)
Definition is_unrelated (mt_unrel : MatrixTable) (c : Col) : option bool :=
  Some (bool_decide (s c ∈ map s (cols mt_unrel))).

(** Line 29: [hl.is_missing(pca_outliers[mt_filt.s])] *)
Definition not_outlier (pca_outliers : list string) (c : Col) : option bool :=
  Some (bool_decide (s c ∉ pca_outliers)).

Definition ref_filtering (ref_mt pass_mt unrel outliers pass_unrel_mt : string)
    (overwrite : bool) : Hail unit :=
  (mt <- hl.read_matrix_table ref_mt ;;
   let mt_filt := hl.filter_cols mt (qc_pass (bad_sample_filters mt)) in
   mt_filt <- hl.checkpoint mt_filt pass_mt false true ;;
   mt_unrel <- hl.read_matrix_table unrel ;;
   let mt_filt := hl.filter_rows mt_filt variant_pass in
   let mt_filt := hl.filter_cols mt_filt (is_unrelated mt_unrel) in
   t <- hl.import_table outliers ;;
   pca_outliers <- lift (hl.key_by_str "s" t) ;;
   let mt_filt := hl.filter_cols mt_filt (not_outlier pca_outliers) in
   hl.write (MatrixFile mt_filt) pass_unrel_mt overwrite)%hail.

(** *** intersect_target_ref *)

(** [snp_list.key_by(locus=hl.locus(chr, pos, rg), alleles=[ref, alt])] *)
Definition key_by_locus_alleles (snp_list : list SnpEntry) (rg : ReferenceGenome)
    : list RowKey :=
  map (fun e => (hl.locus (chr e) (pos e) rg, [ref e; alt e])) snp_list.

(** Lines 47-49: annotate with the lifted locus, drop the entries
    where it is missing, re-key by the lifted locus and the alleles. *)
Definition snp_liftover (keys : list RowKey) : list RowKey :=
  omap (fun k => (fun new_locus => (new_locus, k.2)) <$> liftover k.1 GRCh38) keys.

(** [mt.filter_rows(hl.is_defined(t[mt.row_key]))] *)
Definition filter_rows_in (mt : MatrixTable) (keys : list RowKey) : MatrixTable :=
  hl.filter_rows mt (fun r => Some (bool_decide (row_key r ∈ keys))).

(** Lines 36-50: the two branches on the lowered label; no branch
    is taken for any other label. *)
Definition intersect_filter (mt : MatrixTable) (snp_list : list SnpEntry)
    (grch37_or_grch38 : string) : MatrixTable :=
  if String.eqb (PyStr.lower grch37_or_grch38) "grch38" then
    filter_rows_in mt (key_by_locus_alleles snp_list GRCh38)
  else if String.eqb (PyStr.lower grch37_or_grch38) "grch37" then
    let snp_list := key_by_locus_alleles snp_list GRCh37 in
    let '(rg37, rg38) := load_liftover in
    filter_rows_in mt (snp_liftover snp_list)
  else mt.

(** [mt.repartition(n)] changes the partitioning only. *)
Definition repartition (mt : MatrixTable) (n : nat) : MatrixTable := mt.

Definition intersect_target_ref (ref_mt_filt : string) (snp_list : list SnpEntry)
    (grch37_or_grch38 intersect_out : string) (overwrite : bool) : Hail unit :=
  (mt <- hl.read_matrix_table ref_mt_filt ;;
   let mt := intersect_filter mt snp_list grch37_or_grch38 in
   let mt := repartition mt 5000 in
   mt <- hl.checkpoint mt intersect_out overwrite (negb overwrite) ;;
   ret tt)%hail.

(** *** ld_prune_filter *)

(** Line 60: [(AF[0] > 0.001) & (AF[0] < 0.999)] *)
Definition af_pass (r : Row) : option bool :=
  let AF0 := hl.variant_qc_AF0 r in
  hl.and_ ((fun a => hl.gt a 0.001%Q) <$> AF0) ((fun a => hl.lt a 0.999%Q) <$> AF0).

(** The two [print(mt.count())] only report sizes and are left out. *)
Definition ld_prune_filter (intersect_out prune_out : string) (overwrite : bool)
    : Hail unit :=
  (mt <- hl.read_matrix_table intersect_out ;;
   let mt_filt := hl.filter_rows mt af_pass in
   mt_intersect_prune <- lift (ld_prune mt_filt 0.8%Q 500000%Z) ;;
   let mt_intersect_pruned := filter_rows_in mt_filt mt_intersect_prune in
   hl.write (MatrixFile mt_intersect_pruned) prune_out overwrite)%hail.

(** *** run_pca *)

(** [f'PC{i}' for i in range(1, 21)] *)
Definition pc_names : list string :=
  map (fun i => "PC" ++ PyStr.str_of_nat i) (seq 1 20).

(** [xs[i - 1] for i in range(1, 21)] *)
Definition pc_values (xs : list Q) : HailError + list Q :=
  traverse (fun i => hl.index xs (i - 1)) (seq 1 20).

(** Line 79: [hl.agg.mean(mt.GT.n_alt_alleles()) / 2] *)
Definition row_pca_af (r : Row) : option Q :=
  (fun m => m / 2)%Q <$> hl.agg_mean (map n_alt_alleles (hl.called (GT r))).

(** Line 80: the loadings row annotated with the [pca_af] of the
    matrix row of the same key. *)
Definition annotate_pca_af (mt : MatrixTable) (l : RowKey * list Q) : LoadingRow :=
  {| loading_locus := l.1.1; loading_alleles := l.1.2; loadings := l.2;
     pca_af := List.find (fun r => bool_decide (row_key r = l.1)) (rows mt)
                 ≫= row_pca_af |}.

Definition float_cell (x : option Q) : Cell :=
  match x with Some q => CFloat q | None => CNA end.

(** Line 84: [transmute] replaces [scores] by the twenty PC fields. *)
Definition scores_txt (t : list ScoreRow) : HailError + TextTable :=
  and_then
    (traverse (fun r => and_then (pc_values (scores r))
                          (fun pcs => inr (CStr (score_s r) :: map CFloat pcs))) t)
    (fun lines => inr {| header := "s" :: pc_names; body := lines |}).

Definition loadings_txt (t : list LoadingRow) : TextTable :=
  {| header := ["locus"; "alleles"; "loadings"; "pca_af"];
     body := map (fun l => [CLocus (loading_locus l); CStrs (loading_alleles l);
                            CArray (loadings l); float_cell (pca_af l)]) t |}.

(** Lines 94-95 *)
Definition ht_loadings (ht : list LoadingRow) : HailError + TextTable :=
  and_then
    (traverse (fun l =>
       and_then (hl.variant_str (loading_locus l) (loading_alleles l)) (fun ID =>
       and_then (hl.index (loading_alleles l) 1) (fun ALT =>
       and_then (pc_values (loadings l)) (fun pcs =>
       inr (CStr ID :: CStr ALT :: map CFloat pcs))))) ht)
    (fun lines => inr {| header := "ID" :: "ALT" :: pc_names; body := lines |}).

(** Lines 96-97 *)
Definition ht_afreq (ht : list LoadingRow) : HailError + TextTable :=
  and_then
    (traverse (fun l =>
       and_then (hl.variant_str (loading_locus l) (loading_alleles l)) (fun ID =>
       and_then (hl.index (loading_alleles l) 0) (fun REF =>
       and_then (hl.index (loading_alleles l) 1) (fun ALT =>
       inr [CStr ID; CStr REF; CStr ALT; float_cell (pca_af l)])))) ht)
    (fun lines => inr {| header := ["#ID"; "REF"; "ALT"; "ALT1_FREQ"];
                         body := lines |}).

Definition run_pca (prune_out pca_prefix : string) (overwrite : bool) : Hail unit :=
  (mt <- hl.read_matrix_table prune_out ;;
   out <- lift (hwe_normalized_pca mt 20) ;;
   let '(pca_evals, pca_scores, pca_loadings) := out in
   let pca_loadings := map (annotate_pca_af mt) pca_loadings in
   _ <- hl.write (ScoresFile pca_scores) (pca_prefix ++ "scores.ht") overwrite ;;
   pca_scores <- hl.read_scores (pca_prefix ++ "scores.ht") ;;
   _ <- hl.export (scores_txt pca_scores) (pca_prefix ++ "scores.txt.bgz") ;;
   _ <- hl.export (inr (loadings_txt pca_loadings)) (pca_prefix ++ "loadings.txt.bgz") ;;
   _ <- hl.write (LoadingsFile pca_loadings) (pca_prefix ++ "loadings.ht") overwrite ;;
   ht <- hl.read_loadings (pca_prefix ++ "loadings.ht") ;;
   _ <- hl.export (ht_loadings ht) (pca_prefix ++ "loadings.plink.tsv") ;;
   hl.export (ht_afreq ht) (pca_prefix ++ "loadings.plink.afreq"))%hail.

End Pipeline.

(** *** main *)

(** The parsed command line. *)
Module args.

Record t := mk {
  ref_mt : string;
  pass_mt : string;
  unrel_mt : string;
  outliers : string;
  pass_unrel_mt : string;
  snp_list : string;
  grch37_or_grch38 : string;
  intersect_out : string;
  prune_out : string;
  pca_prefix : string;
  run_ref_filtering : bool;
  run_intersection : bool;
  run_ld_prune_filter : bool;
  run_pca : bool;
  overwrite : bool
}.

End args.

Section Main.

Variable chain : ReferenceGenome -> ReferenceGenome -> string -> Z -> option (string * Z).
Variable ld_prune : MatrixTable -> Q -> Z -> HailError + list RowKey.
Variable hwe_normalized_pca : MatrixTable -> nat -> HailError + PcaOutput.

(** [hl.import_table(args.snp_list, impute=True)], with [chr] and
    [pos] as [hl.str] and [hl.int] read them.  The SNP list is a text
    input that no stage writes; it is kept outside the store. *)
Variable import_snp_list : string -> HailError + list SnpEntry.

(** [if flag: stage] *)
Definition when (flag : bool) (stage : Hail unit) : Hail unit :=
  if flag then stage else ret tt.

Definition main (a : args.t) : Hail unit :=
  (_ <- when (args.run_ref_filtering a)
          (ref_filtering (args.ref_mt a) (args.pass_mt a) (args.unrel_mt a)
             (args.outliers a) (args.pass_unrel_mt a) (args.overwrite a)) ;;
   _ <- when (args.run_intersection a)
          (snp_list <- lift (import_snp_list (args.snp_list a)) ;;
           intersect_target_ref chain (args.pass_unrel_mt a) snp_list
             (args.grch37_or_grch38 a) (args.intersect_out a) (args.overwrite a)) ;;
   _ <- when (args.run_ld_prune_filter a)
          (ld_prune_filter ld_prune (args.intersect_out a) (args.prune_out a)
             (args.overwrite a)) ;;
   when (args.run_pca a)
     (run_pca hwe_normalized_pca (args.prune_out a) (args.pca_prefix a)
        (args.overwrite a)))%hail.

End Main.

(** ** Example data

    A three-sample, three-variant reference matrix, the liftover of
    one GRCh37 locus, and small stand-ins for the two library engines
    (used to run the stages on concrete inputs). *)

Module Toy.

Definition hom_ref : option Call := Some (mkCall 0 0).
Definition het : option Call := Some (mkCall 0 1).
Definition hom_var : option Call := Some (mkCall 1 1).

Definition fields : list string :=
  ["sex_aneuploidy"; "fail_n_snp_residual"; "qc_metrics_filters"].

Definition S1 : Col := mkCol "S1" (Some {["contamination"]}).
Definition S2 : Col := mkCol "S2" (Some {["n_snp_residual"]}).
Definition S3 : Col := mkCol "S3" (Some ∅).

Definition v1 : Row :=
  mkRow (mkLocus "chr1" 1065 GRCh38) ["A"; "G"] (Some ∅) [het; hom_ref; hom_var].
Definition v2 : Row :=
  mkRow (mkLocus "chr1" 1165 GRCh38) ["G"; "A"] (Some ∅) [het; None; hom_var].
Definition v3 : Row :=
  mkRow (mkLocus "chr2" 500 GRCh38) ["C"; "T"] (Some {["AC0"]}) [hom_ref; hom_ref; hom_ref].
Definition v4 : Row :=
  mkRow (mkLocus "chr1" 90000 GRCh38) ["T"; "C"] (Some ∅) [hom_ref; het; hom_var].

Definition ref : MatrixTable := mkMT fields [S1; S2; S3] [v1; v2; v3].

Definition unrel : MatrixTable :=
  mkMT [] [mkCol "S1" None; mkCol "S2" None; mkCol "S3" None] [].

Definition outliers : TextTable :=
  mkText ["s"; "pop"] [[CStr "S3"; CStr "EUR"]].

Definition store : Store :=
  <["ref.mt" := MatrixFile ref]>
    (<["unrel.mt" := MatrixFile unrel]>
       (<["outliers.txt" := TextFile outliers]> ∅)).

(** The same files after somebody left an unfiltered copy of the
    reference matrix at the QC-pass path. *)
Definition store_with_pass : Store := <["pass.mt" := MatrixFile ref]> store.

(** [chr1:1000] on GRCh37 lifts to [chr1:1065] on GRCh38; nothing
    else is covered by the chain. *)
Definition chain (src dst : ReferenceGenome) (c : string) (p : Z)
    : option (string * Z) :=
  match src, dst with
  | GRCh37, GRCh38 =>
      if String.eqb c "chr1" && (p =? 1000)%Z then Some ("chr1", 1065%Z) else None
  | _, _ => None
  end.

Definition snp_list37 : list SnpEntry :=
  [mkSnp "chr1" 1000 "A" "G"; mkSnp "chr1" 2000 "C" "T"].
Definition snp_list38 : list SnpEntry :=
  [mkSnp "chr1" 1065 "A" "G"; mkSnp "chr7" 42 "C" "T"].

(** Dosage vectors with the missing calls replaced by the row mean,
    and the squared Pearson correlation of two of them. *)
Definition dosages (gt : list (option Call)) : list Q :=
  let m := default 0%Q (hl.agg_mean (map n_alt_alleles (hl.called gt))) in
  map (fun c => match c with
                | Some c => inject_Z (n_alt_alleles c)
                | None => m
                end) gt.

Definition sum_Q (xs : list Q) : Q := foldr Qplus 0%Q xs.

Definition centred (xs : list Q) : list Q :=
  let m := (sum_Q xs / inject_Z (Z.of_nat (length xs)))%Q in
  map (fun x => (x - m)%Q) xs.

Definition dot (xs ys : list Q) : Q :=
  sum_Q (zip_with Qmult xs ys).

Definition r2 (a b : list (option Call)) : Q :=
  let x := centred (dosages a) in
  let y := centred (dosages b) in
  Qred ((dot x y * dot x y) / (dot x x * dot y y))%Q.

(** A greedy pruner in row order: a row is kept unless it is within
    the window of, and correlated above the threshold with, a row
    kept before it. *)
Definition conflict (threshold : Q) (window : Z) (a b : Row) : bool :=
  String.eqb (contig (locus a)) (contig (locus b))
  && (Z.abs (position (locus a) - position (locus b)) <=? window)%Z
  && Qle_bool threshold (r2 (GT a) (GT b)).

Fixpoint greedy (threshold : Q) (window : Z) (kept todo : list Row) : list Row :=
  match todo with
  | [] => kept
  | r :: todo' =>
      if existsb (conflict threshold window r) kept
      then greedy threshold window kept todo'
      else greedy threshold window (kept ++ [r]) todo'
  end.

Definition ld_prune (mt : MatrixTable) (threshold : Q) (window : Z)
    : HailError + list RowKey :=
  inr (map row_key (greedy threshold window [] (rows mt))).

(** A stand-in for the PCA engine: like the library it leaves out
    the variants without both alleles among the calls, fails when none
    is left or when there are fewer samples than components, and
    otherwise returns vectors of the requested length (the numbers are
    placeholders). *)
Definition polymorphic (r : Row) : bool :=
  let AC := hl.sum_Z (map n_alt_alleles (hl.called (GT r))) in
  let n_called := Z.of_nat (length (hl.called (GT r))) in
  (0 <? AC)%Z && (AC <? 2 * n_called)%Z.

Definition hwe_normalized_pca (mt : MatrixTable) (k : nat) : HailError + PcaOutput :=
  let variants := List.filter polymorphic (rows mt) in
  if (length variants =? 0)%nat then
    inl (LibraryFailure "hwe_normalize: found 0 variants after filtering out monomorphic sites.")
  else if (length (cols mt) <? k)%nat then
    inl (LibraryFailure "requested more singular values than there are samples")
  else
    inr (replicate k 1%Q,
         map (fun c => mkScore (s c) (replicate k 0%Q)) (cols mt),
         map (fun r => (row_key r, replicate k 0%Q)) variants).

Definition pruned : MatrixTable := mkMT fields [S1; S2; S3] [v1; v4].


(** An intersected matrix in which [v5] carries the same calls as
    [v1], 35 base pairs further, and [v3] is monomorphic. *)
Definition v5 : Row :=
  mkRow (mkLocus "chr1" 1100 GRCh38) ["C"; "T"] (Some ∅) [het; hom_ref; hom_var].

Definition intersected : MatrixTable := mkMT fields [S1; S2; S3] [v1; v5; v4; v3].

Definition store_ld : Store := <["intersect.mt" := MatrixFile intersected]> ∅.

(** Twenty samples; [v_poly] alternates between heterozygous and
    homozygous reference calls, [v_mono] is homozygous reference
    throughout. *)
Definition cohort_cols : list Col :=
  map (fun i => mkCol ("S" ++ PyStr.str_of_nat i) (Some ∅)) (seq 1 20).

Definition v_poly : Row :=
  mkRow (mkLocus "chr1" 1065 GRCh38) ["A"; "G"] (Some ∅)
    (map (fun i => if Nat.even i then het else hom_ref) (seq 1 20)).

Definition v_mono : Row :=
  mkRow (mkLocus "chr1" 90000 GRCh38) ["T"; "C"] (Some ∅) (replicate 20 hom_ref).

Definition cohort : MatrixTable := mkMT fields cohort_cols [v_poly; v_mono].

Definition store_pca : Store := <["prune.mt" := MatrixFile cohort]> ∅.


End Toy.

(** A reference matrix of six samples for a run of the first three
    stages: [E] is listed as an outlier, [F] is not in the unrelated
    set, [w2] is not on the SNP list and [w3] carries a variant
    filter. *)
Module ToyRun.

Definition cols6 : list Col :=
  map (fun n => mkCol n (Some ∅)) ["A"; "B"; "C"; "D"; "E"; "F"].

Definition w1 : Row :=
  mkRow (mkLocus "chr1" 1065 GRCh38) ["A"; "G"] (Some ∅)
    [Toy.het; Toy.hom_ref; Toy.hom_var; Toy.het; Toy.het; Toy.hom_ref].
Definition w2 : Row :=
  mkRow (mkLocus "chr1" 5000 GRCh38) ["C"; "T"] (Some ∅)
    [Toy.het; Toy.het; Toy.hom_ref; None; Toy.het; Toy.hom_ref].
Definition w3 : Row :=
  mkRow (mkLocus "chr7" 42 GRCh38) ["C"; "T"] (Some {["AC0"]})
    [Toy.het; Toy.hom_ref; Toy.hom_ref; Toy.het; Toy.het; Toy.hom_ref].

Definition ref : MatrixTable := mkMT Toy.fields cols6 [w1; w2; w3].

Definition unrel : MatrixTable :=
  mkMT [] (map (fun n => mkCol n None) ["A"; "B"; "C"; "D"; "E"]) [].

Definition outliers : TextTable := mkText ["s"] [[CStr "E"]].

Definition store : Store :=
  <["ref.mt" := MatrixFile ref]>
    (<["unrel.mt" := MatrixFile unrel]>
       (<["outliers.txt" := TextFile outliers]> ∅)).

Definition import_snp_list (path : string) : HailError + list SnpEntry :=
  if String.eqb path "snps.tsv" then inr Toy.snp_list38
  else inl (FileNotFound path).

Definition cli : args.t :=
  {| args.ref_mt := "ref.mt"; args.pass_mt := "pass.mt";
     args.unrel_mt := "unrel.mt"; args.outliers := "outliers.txt";
     args.pass_unrel_mt := "pu.mt"; args.snp_list := "snps.tsv";
     args.grch37_or_grch38 := "grch38"; args.intersect_out := "intersect.mt";
     args.prune_out := "prune.mt"; args.pca_prefix := "pca/";
     args.run_ref_filtering := true; args.run_intersection := true;
     args.run_ld_prune_filter := true; args.run_pca := false;
     args.overwrite := true |}.

(** An engine result with a scores vector of three components. *)
Definition pca_short (mt : MatrixTable) (k : nat) : HailError + PcaOutput :=
  inr (replicate k 1%Q,
       [mkScore "A" (replicate k 0%Q); mkScore "B" (replicate 3 0%Q)],
       []).

(** The chain map of [Toy.chain] with the reverse direction added. *)
Definition chain_both (src dst : ReferenceGenome) (c : string) (p : Z)
    : option (string * Z) :=
  match src, dst with
  | GRCh38, GRCh37 =>
      if String.eqb c "chr1" && (p =? 1065)%Z then Some ("chr1", 1000%Z) else None
  | _, _ => Toy.chain src dst c p
  end.


End ToyRun.

(** ** The LD pruner *)

(** Modelled from the spec: the pruner behind [hl.ld_prune], whose
    code is not in the repository.  Section 4.4 has it take the
    variants in position order, link two variants of a chromosome that
    lie within the window when their r2 (the squared Pearson
    correlation of the genotype dosages across the samples, missing
    calls mean-imputed) reaches the threshold, and select greedily:
    the earliest remaining candidate is retained and the candidates in
    conflict with it are removed, until no candidate remains. *)

Module LdPruner.

Definition sum_Q (xs : list Q) : Q := foldr Qplus 0%Q xs.

(** Dosages of a variant across the samples, a missing call taking
    the mean of the called ones. *)
Definition dosages (gt : list (option Call)) : list Q :=
  let mean := default 0%Q (hl.agg_mean (map n_alt_alleles (hl.called gt))) in
  map (fun c => match c with
                | Some c => inject_Z (n_alt_alleles c)
                | None => mean
                end) gt.

Definition centred (xs : list Q) : list Q :=
  let mean := (sum_Q xs / inject_Z (Z.of_nat (length xs)))%Q in
  map (fun x => (x - mean)%Q) xs.

Definition dot (xs ys : list Q) : Q := sum_Q (zip_with Qmult xs ys).

(** Squared Pearson correlation of the dosages of two variants. *)
Definition r2 (a b : list (option Call)) : Q :=
  let x := centred (dosages a) in
  let y := centred (dosages b) in
  ((dot x y * dot x y) / (dot x x * dot y y))%Q.

(** An edge of the conflict graph. *)
Definition conflict (threshold : Q) (window : Z) (a b : Row) : bool :=
  String.eqb (contig (locus a)) (contig (locus b))
  && (Z.abs (position (locus a) - position (locus b)) <=? window)%Z
  && Qle_bool threshold (r2 (GT a) (GT b)).

(** The variants in position order. *)
Fixpoint insert_by_position (r : Row) (l : list Row) : list Row :=
  match l with
  | [] => [r]
  | x :: l' =>
      if (position (locus r) <=? position (locus x))%Z then r :: x :: l'
      else x :: insert_by_position r l'
  end.

Definition by_position (l : list Row) : list Row := foldr insert_by_position [] l.

(** Greedy selection.  Each round retains one candidate, so as many
    rounds as there are candidates are enough; [fuel] counts them. *)
Fixpoint select (fuel : nat) (threshold : Q) (window : Z) (candidates : list Row)
    : list Row :=
  match fuel, candidates with
  | S fuel', r :: rest =>
      r :: select fuel' threshold window
             (List.filter (fun x => negb (conflict threshold window r x)) rest)
  | _, _ => []
  end.

(** Modelled from the spec: [hl.ld_prune], the table of the keys of
    the variants retained by the greedy selection of section 4.4 over
    the variants in position order. *)
Definition ld_prune (mt : MatrixTable) (threshold : Q) (window : Z)
    : HailError + list RowKey :=
  inr (map row_key
         (select (length (rows mt)) threshold window (by_position (rows mt)))).

End LdPruner.

(** ** Predicates used in the statements *)

(** The assembly a label selects: the branch of [intersect_filter]
    taken for it. *)
Definition recognised (label : string) (rg : ReferenceGenome) : Prop :=
  match rg with
  | GRCh38 => PyStr.lower label = "grch38"
  | GRCh37 => PyStr.lower label = "grch37"
  end.

(** The matrix key a panel entry stands for: the entry itself on
    GRCh38, its lifted locus with the original alleles on GRCh37 (no
    key when the locus does not lift). *)
Definition panel_key (chain : ReferenceGenome -> ReferenceGenome -> string -> Z ->
                              option (string * Z))
    (rg : ReferenceGenome) (e : SnpEntry) (k : RowKey) : Prop :=
  match rg with
  | GRCh38 => k = (mkLocus (chr e) (pos e) GRCh38, [ref e; alt e])
  | GRCh37 => exists c p, chain GRCh37 GRCh38 (chr e) (pos e) = Some (c, p)
                          /\ k = (mkLocus c p GRCh38, [ref e; alt e])
  end.








(** A step of a run leaves the artifact [a] at [path] in place. *)
Definition keeps {A} (path : string) (a : Artifact) (m : Hail A) : Prop :=
  forall st, st !! path = Some a -> (m st).2 !! path = Some a.

(** A step of a run changes no path outside [paths]. *)
Definition only_writes {A} (paths : list string) (m : Hail A) : Prop :=
  forall st p, p ∉ paths -> (m st).2 !! p = st !! p.

(** The variant has a called alternate allele and a called reference
    allele. *)
Definition segregating (r : Row) : Prop :=
  (exists c, c ∈ hl.called (GT r) /\ (0 < n_alt_alleles c)%Z)
  /\ (exists c, c ∈ hl.called (GT r) /\ (n_alt_alleles c < 2)%Z).

(** ** Running the monad *)

Lemma bind_inr {A B} (m : Hail A) (k : A -> Hail B) st b st' :
  bind m k st = (inr b, st') ->
  exists a st1, m st = (inr a, st1) /\ k a st1 = (inr b, st').
Proof.
  unfold bind. destruct (m st) as [[e|a] st1]; [discriminate|]. eauto.
Qed.

Lemma bind_run {A B} (m : Hail A) (k : A -> Hail B) st a st1 :
  m st = (inr a, st1) -> bind m k st = k a st1.
Proof. unfold bind. intros ->. reflexivity. Qed.

Lemma bind_fail {A B} (m : Hail A) (k : A -> Hail B) st e st1 :
  m st = (inl e, st1) -> bind m k st = (inl e, st1).
Proof. unfold bind. intros ->. reflexivity. Qed.

Lemma lift_inr {A} (r : HailError + A) st a st' :
  lift r st = (inr a, st') -> r = inr a /\ st' = st.
Proof. unfold lift. intros [= -> ->]. auto. Qed.

Lemma exists_true path (st : Store) a :
  st !! path = Some a -> hl.exists_ path st = true.
Proof. intros H. unfold hl.exists_. apply bool_decide_eq_true. rewrite H. eauto. Qed.

Lemma exists_false path (st : Store) :
  st !! path = None -> hl.exists_ path st = false.
Proof.
  intros H. unfold hl.exists_. apply bool_decide_eq_false.
  rewrite H. intros [? ?]. discriminate.
Qed.

Lemma exists_false_inv path (st : Store) :
  hl.exists_ path st = false -> st !! path = None.
Proof.
  unfold hl.exists_. intros H%bool_decide_eq_false.
  destruct (st !! path); [exfalso; eauto | reflexivity].
Qed.

Lemma read_matrix_table_run path (st : Store) mt :
  st !! path = Some (MatrixFile mt) -> hl.read_matrix_table path st = (inr mt, st).
Proof. unfold hl.read_matrix_table. intros ->. reflexivity. Qed.

Lemma read_matrix_table_inr path st mt st' :
  hl.read_matrix_table path st = (inr mt, st') ->
  st !! path = Some (MatrixFile mt) /\ st' = st.
Proof.
  unfold hl.read_matrix_table.
  destruct (st !! path) as [[]|]; intros [=]; subst; auto.
Qed.

Lemma import_table_inr path st t st' :
  hl.import_table path st = (inr t, st') ->
  st !! path = Some (TextFile t) /\ st' = st.
Proof.
  unfold hl.import_table.
  destruct (st !! path) as [[]|]; intros [=]; subst; auto.
Qed.



Lemma write_overwrite a path st :
  hl.write a path true st = (inr tt, <[path := a]> st).
Proof. reflexivity. Qed.

Lemma write_fresh a path ow (st : Store) :
  st !! path = None -> hl.write a path ow st = (inr tt, <[path := a]> st).
Proof.
  intros H. unfold hl.write. rewrite (exists_false _ _ H).
  rewrite andb_false_r. reflexivity.
Qed.


Lemma write_inr a path ow st u st' :
  hl.write a path ow st = (inr u, st') ->
  st' = <[path := a]> st /\ (ow = true \/ st !! path = None).
Proof.
  unfold hl.write.
  destruct ow; simpl; [intros [= <-]; auto|].
  destruct (hl.exists_ path st) eqn:E; intros [=]; subst.
  split; [reflexivity | right; by apply exists_false_inv].
Qed.


(** With [_read_if_exists], a matrix already at the path is returned
    as it is and nothing is written. *)
Lemma checkpoint_reuse mt path ow (st : Store) old :
  st !! path = Some (MatrixFile old) ->
  hl.checkpoint mt path ow true st = (inr old, st).
Proof.
  intros H. unfold hl.checkpoint. rewrite (exists_true _ _ _ H). simpl.
  by apply read_matrix_table_run.
Qed.

(** Otherwise the matrix is written and read back. *)
Lemma checkpoint_write mt path ow rie (st : Store) :
  (ow = true /\ rie = false) \/ st !! path = None ->
  hl.checkpoint mt path ow rie st = (inr mt, <[path := MatrixFile mt]> st).
Proof.
  intros H. unfold hl.checkpoint.
  assert (negb rie || negb (hl.exists_ path st) = true) as ->.
  { destruct H as [[_ ->]|H]; [reflexivity|].
    rewrite (exists_false _ _ H). apply orb_true_r. }
  assert (hl.write (MatrixFile mt) path ow st
          = (inr tt, <[path := MatrixFile mt]> st)) as Hw.
  { destruct H as [[-> _]|H]; [apply write_overwrite | by apply write_fresh]. }
  rewrite (bind_run _ _ _ _ _ Hw).
  apply read_matrix_table_run. apply lookup_insert_eq.
Qed.

Lemma checkpoint_inr mt path ow rie st m st' :
  hl.checkpoint mt path ow rie st = (inr m, st') ->
  (rie = true /\ st !! path = Some (MatrixFile m) /\ st' = st)
  \/ ((rie = false \/ st !! path = None) /\ (ow = true \/ st !! path = None)
      /\ m = mt /\ st' = <[path := MatrixFile mt]> st).
Proof.
  unfold hl.checkpoint.
  destruct (negb rie || negb (hl.exists_ path st)) eqn:E.
  - intros (u & st1 & Hw & Hr)%bind_inr.
    apply write_inr in Hw as [-> Hw].
    apply read_matrix_table_inr in Hr as [Hr ->].
    rewrite lookup_insert_eq in Hr. injection Hr as <-.
    right. repeat split; auto.
    apply orb_true_iff in E as [E|E].
    + left. by destruct rie.
    + right. apply exists_false_inv. by destruct (hl.exists_ path st).
  - intros [Hr ->]%read_matrix_table_inr.
    apply orb_false_iff in E as [E _].
    left. repeat split; auto. by destruct rie.
Qed.

(** ** Filters *)

Lemma elem_of_List_filter {A} (f : A -> bool) (l : list A) x :
  x ∈ List.filter f l <-> x ∈ l /\ f x = true.
Proof. rewrite !list_elem_of_In. apply filter_In. Qed.

Lemma mask_filter_map {A} (f : A -> bool) (l : list A) :
  hl.mask_filter (map f l) l = List.filter f l.
Proof.
  induction l as [|x l IH]; simpl; [reflexivity|].
  rewrite IH. reflexivity.
Qed.

Lemma filter_cols_cols mt p :
  cols (hl.filter_cols mt p) = List.filter (fun c => hl.keep (p c)) (cols mt).
Proof. unfold hl.filter_cols. simpl. apply mask_filter_map. Qed.

Lemma elem_of_filter_cols mt p c :
  c ∈ cols (hl.filter_cols mt p) <-> c ∈ cols mt /\ p c = Some true.
Proof.
  rewrite filter_cols_cols, elem_of_List_filter. unfold hl.keep.
  destruct (p c) as [[]|]; intuition congruence.
Qed.

Lemma elem_of_filter_rows mt p r :
  r ∈ rows (hl.filter_rows mt p) <-> r ∈ rows mt /\ p r = Some true.
Proof.
  unfold hl.filter_rows. simpl. rewrite elem_of_List_filter. unfold hl.keep.
  destruct (p r) as [[]|]; intuition congruence.
Qed.

Lemma filter_rows_cols mt p : cols (hl.filter_rows mt p) = cols mt.
Proof. reflexivity. Qed.

Lemma List_filter_sublist {A} (f : A -> bool) (l : list A) :
  sublist (List.filter f l) l.
Proof.
  induction l as [|x l IH]; simpl; [constructor|].
  destruct (f x); by constructor.
Qed.

(** ** The intersection stage *)

Section Intersection.

Variable chain : ReferenceGenome -> ReferenceGenome -> string -> Z -> option (string * Z).

(** The stage writes what [intersect_filter] computes whenever it
    may write: with the flag set, or on a fresh output path. *)
Lemma intersect_target_ref_recompute st ref_mt_filt snp_list label out ow mt :
  st !! ref_mt_filt = Some (MatrixFile mt) ->
  ow = true \/ st !! out = None ->
  intersect_target_ref chain ref_mt_filt snp_list label out ow st
  = (inr tt, <[out := MatrixFile (intersect_filter chain mt snp_list label)]> st).
Proof.
  intros Hin Hout. unfold intersect_target_ref, repartition.
  rewrite (bind_run _ _ _ _ _ (read_matrix_table_run _ _ _ Hin)).
  erewrite bind_run; [reflexivity|].
  apply checkpoint_write. destruct Hout as [->|Hout]; auto.
Qed.

(** With the flag unset, a matrix already at the output path is
    kept and nothing is computed. *)
Lemma intersect_target_ref_reuse st ref_mt_filt snp_list label out mt old :
  st !! ref_mt_filt = Some (MatrixFile mt) ->
  st !! out = Some (MatrixFile old) ->
  intersect_target_ref chain ref_mt_filt snp_list label out false st = (inr tt, st).
Proof.
  intros Hin Hout. unfold intersect_target_ref.
  rewrite (bind_run _ _ _ _ _ (read_matrix_table_run _ _ _ Hin)).
  erewrite bind_run; [reflexivity|]. simpl. by eapply checkpoint_reuse.
Qed.


Lemma intersect_filter_grch38 mt snp_list label :
  PyStr.lower label = "grch38" ->
  intersect_filter chain mt snp_list label
  = filter_rows_in mt (key_by_locus_alleles snp_list GRCh38).
Proof. unfold intersect_filter. intros ->. reflexivity. Qed.

Lemma intersect_filter_grch37 mt snp_list label :
  PyStr.lower label = "grch37" ->
  intersect_filter chain mt snp_list label
  = filter_rows_in mt (snp_liftover chain (key_by_locus_alleles snp_list GRCh37)).
Proof. unfold intersect_filter. intros ->. reflexivity. Qed.


Lemma elem_of_filter_rows_in mt keys r :
  r ∈ rows (filter_rows_in mt keys) <-> r ∈ rows mt /\ row_key r ∈ keys.
Proof.
  unfold filter_rows_in. rewrite elem_of_filter_rows.
  split; intros [Hr Hk]; split; auto.
  - injection Hk as Hk. by apply bool_decide_eq_true in Hk.
  - f_equal. by apply bool_decide_eq_true.
Qed.

Lemma elem_of_panel_keys snp_list rg k :
  (k ∈ match rg with
       | GRCh38 => key_by_locus_alleles snp_list GRCh38
       | GRCh37 => snp_liftover chain (key_by_locus_alleles snp_list GRCh37)
       end)
  <-> exists e, e ∈ snp_list /\ panel_key chain rg e k.
Proof.
  destruct rg; simpl.
  - unfold snp_liftover, key_by_locus_alleles. rewrite list_elem_of_omap.
    split.
    + intros (k0 & (e & -> & He)%list_elem_of_fmap & Hl).
      exists e. split; [done|]. unfold liftover in Hl. simpl in Hl.
      destruct (chain GRCh37 GRCh38 (chr e) (pos e)) as [[c p]|]; [|done].
      injection Hl as <-. eauto.
    + intros (e & He & c & p & Hc & ->).
      exists (hl.locus (chr e) (pos e) GRCh37, [ref e; alt e]). split.
      * apply list_elem_of_fmap. eauto.
      * unfold liftover. simpl. rewrite Hc. reflexivity.
  - unfold key_by_locus_alleles. rewrite list_elem_of_fmap.
    split; intros (e & H1 & H2); exists e; auto.
Qed.

(** C3 (amended). For a recognised label the matrix the stage
    computes is a semi-join of the matrix rows with the target panel:
    the columns are untouched, the rows kept are a sub-sequence of the
    input rows, a row is kept exactly when its (locus, alleles) key is
    the key of some panel entry (the entry itself for GRCh38, its
    lifted locus with the original alleles for GRCh37, entries that do
    not lift giving no key).  This is the matrix stored at the output
    path when the flag is set or nothing is stored there; with the
    flag unset and a matrix stored at the output path, the run
    succeeds and leaves that matrix, and the whole store, as it
    was. *)
Theorem intersect_semi_join mt snp_list label rg :
  recognised label rg ->
  let out := intersect_filter chain mt snp_list label in
  cols out = cols mt
  /\ sublist (rows out) (rows mt)
  /\ (forall r, r ∈ rows out <->
        r ∈ rows mt /\ exists e, e ∈ snp_list /\ panel_key chain rg e (row_key r))
  /\ (forall st ref_mt_filt intersect_out ow,
        st !! ref_mt_filt = Some (MatrixFile mt) ->
        ow = true \/ st !! intersect_out = None ->
        intersect_target_ref chain ref_mt_filt snp_list label intersect_out ow st
        = (inr tt, <[intersect_out := MatrixFile out]> st))
  /\ (forall st ref_mt_filt intersect_out old,
        st !! ref_mt_filt = Some (MatrixFile mt) ->
        st !! intersect_out = Some (MatrixFile old) ->
        intersect_target_ref chain ref_mt_filt snp_list label intersect_out false st
        = (inr tt, st)).
Proof.
  intros Hl out.
  assert (out = filter_rows_in mt
                  match rg with
                  | GRCh38 => key_by_locus_alleles snp_list GRCh38
                  | GRCh37 => snp_liftover chain (key_by_locus_alleles snp_list GRCh37)
                  end) as Hout.
  { subst out. destruct rg; simpl in Hl.
    - by apply intersect_filter_grch37.
    - by apply intersect_filter_grch38. }
  split; [by rewrite Hout|].
  split; [rewrite Hout; apply List_filter_sublist|].
  split; [|split].
  - intros r. rewrite Hout, elem_of_filter_rows_in, elem_of_panel_keys. reflexivity.
  - intros st ref_mt_filt intersect_out ow Hin Hw.
    by apply intersect_target_ref_recompute.
  - intros st ref_mt_filt intersect_out old Hin Hold.
    by eapply intersect_target_ref_reuse.
Qed.



(** C9. The label is only ever compared after lowering: two labels
    with the same lowering give the same run, result and files. *)
Theorem label_case_insensitive ref_mt_filt snp_list label1 label2 out ow st :
  PyStr.lower label1 = PyStr.lower label2 ->
  intersect_target_ref chain ref_mt_filt snp_list label1 out ow st
  = intersect_target_ref chain ref_mt_filt snp_list label2 out ow st.
Proof.
  intros H. unfold intersect_target_ref, intersect_filter. rewrite H. reflexivity.
Qed.

End Intersection.

(** Closed instances of the intersection results. *)

Example intersect_grch37_scenario :
  rows (intersect_filter Toy.chain Toy.ref Toy.snp_list37 "GRCh37") = [Toy.v1].
Proof. vm_compute. reflexivity. Qed.

Example lower_labels :
  PyStr.lower "GRCh38" = "grch38" /\ PyStr.lower "GRCH37" = "grch37"
  /\ PyStr.lower "hg19" = "hg19".
Proof. repeat split. Qed.

Lemma intersect_semi_join_witness :
  recognised "GRCh37" GRCh37
  /\ forall r, r ∈ rows (intersect_filter Toy.chain Toy.ref Toy.snp_list37 "GRCh37") <->
       r ∈ rows Toy.ref
       /\ exists e, e ∈ Toy.snp_list37 /\ panel_key Toy.chain GRCh37 e (row_key r).
Proof.
  split; [reflexivity|].
  pose proof (intersect_semi_join Toy.chain Toy.ref Toy.snp_list37 "GRCh37" GRCh37
                eq_refl) as (_ & _ & H & _).
  exact H.
Defined.

(** The claim of C3 fails for the matrix at the output path when the
    flag is unset and a matrix is stored there: the run succeeds, the
    stored matrix stays, and its variant [Toy.v2] is the key of no
    panel entry. *)
Lemma intersect_reuse_keeps_unlisted_variant :
  recognised "grch38" GRCh38
  /\ intersect_target_ref Toy.chain "ref.mt" Toy.snp_list38 "grch38" "out.mt" false
       (<["out.mt" := MatrixFile Toy.ref]> Toy.store)
     = (inr tt, <["out.mt" := MatrixFile Toy.ref]> Toy.store)
  /\ Toy.v2 ∈ rows Toy.ref
  /\ ~ exists e, e ∈ Toy.snp_list38 /\ panel_key Toy.chain GRCh38 e (row_key Toy.v2).
Proof.
  split; [reflexivity|]. split; [vm_compute; reflexivity|].
  split; [apply (bool_decide_unpack _); vm_compute; exact I|].
  intros (e & He & Hk). simpl in Hk.
  apply list_elem_of_In in He. simpl in He.
  destruct He as [<-|[<-|[]]]; discriminate.
Qed.



Lemma label_case_insensitive_witness :
  PyStr.lower "GRCh38" = PyStr.lower "GRCH38"
  /\ intersect_target_ref Toy.chain "ref.mt" Toy.snp_list38 "GRCh38" "out.mt" false Toy.store
     = intersect_target_ref Toy.chain "ref.mt" Toy.snp_list38 "GRCH38" "out.mt" false Toy.store.
Proof.
  split; [reflexivity|].
  apply (label_case_insensitive Toy.chain "ref.mt" Toy.snp_list38 "GRCh38" "GRCH38").
  reflexivity.
Defined.

(** ** The sample QC stage *)

Lemma read_matrix_table_store path st : (hl.read_matrix_table path st).2 = st.
Proof. unfold hl.read_matrix_table. by destruct (st !! path) as [[]|]. Qed.

Lemma import_table_store path st : (hl.import_table path st).2 = st.
Proof. unfold hl.import_table. by destruct (st !! path) as [[]|]. Qed.

Lemma size_difference_empty (fs bad : gset string) :
  size (fs ∖ bad) = 0%nat <-> fs ∖ bad = ∅.
Proof.
  split.
  - intros H. apply leibniz_equiv. by apply size_empty_inv.
  - intros ->. apply size_empty.
Qed.

Lemma qc_pass_true bad c :
  qc_pass bad c = Some true <->
  exists fs, qc_metrics_filters c = Some fs /\ fs ∖ bad = ∅.
Proof.
  unfold qc_pass. destruct (qc_metrics_filters c) as [fs|]; simpl.
  - split.
    + intros [= H%bool_decide_eq_true]. exists fs.
      split; [reflexivity | by apply size_difference_empty].
    + intros (? & [= <-] & H). f_equal.
      apply bool_decide_eq_true. by apply size_difference_empty.
  - split; [discriminate | intros (? & ? & _); discriminate].
Qed.

(** What a successful run has read and written. *)
Lemma ref_filtering_inr ref_mt pass_mt unrel outliers pass_unrel_mt ow st st' :
  ref_filtering ref_mt pass_mt unrel outliers pass_unrel_mt ow st = (inr tt, st') ->
  exists mt mt_pass st1 mt_unrel t ids,
    st !! ref_mt = Some (MatrixFile mt)
    /\ hl.checkpoint (hl.filter_cols mt (qc_pass (bad_sample_filters mt)))
         pass_mt false true st = (inr mt_pass, st1)
    /\ st1 !! unrel = Some (MatrixFile mt_unrel)
    /\ st1 !! outliers = Some (TextFile t)
    /\ hl.key_by_str "s" t = inr ids
    /\ (ow = true \/ st1 !! pass_unrel_mt = None)
    /\ st' = <[pass_unrel_mt :=
                 MatrixFile (hl.filter_cols
                               (hl.filter_cols (hl.filter_rows mt_pass variant_pass)
                                  (is_unrelated mt_unrel))
                               (not_outlier ids))]> st1.
Proof.
  unfold ref_filtering.
  intros (mt & s0 & [Hmt ->]%read_matrix_table_inr & H)%bind_inr.
  apply bind_inr in H as (mt_pass & st1 & Hck & H).
  apply bind_inr in H as (mt_unrel & s1 & [Hun ->]%read_matrix_table_inr & H).
  apply bind_inr in H as (t & s2 & [Ht ->]%import_table_inr & H).
  apply bind_inr in H as (ids & s3 & [Hids ->]%lift_inr & H).
  apply write_inr in H as [-> Hw].
  exists mt, mt_pass, st1, mt_unrel, t, ids. repeat split; auto.
Qed.

(** C2 (amended). Every sample kept by the stage is a member of the
    unrelated-sample matrix and is absent from the outlier table; and
    when nothing was stored at the QC-pass path beforehand, it is a
    sample of the reference matrix whose quality-metric failures, minus
    the exempted categories, are empty.  (A matrix already at the
    QC-pass path is taken over as it is, whatever the overwrite flag.) *)
Theorem ref_filtering_retained
    ref_mt pass_mt unrel outliers pass_unrel_mt ow st st' mt mt_unrel t ids :
  ref_filtering ref_mt pass_mt unrel outliers pass_unrel_mt ow st = (inr tt, st') ->
  st !! ref_mt = Some (MatrixFile mt) ->
  st !! unrel = Some (MatrixFile mt_unrel) ->
  st !! outliers = Some (TextFile t) ->
  hl.key_by_str "s" t = inr ids ->
  exists out,
    st' !! pass_unrel_mt = Some (MatrixFile out)
    /\ forall c, c ∈ cols out ->
         (s c ∈ map s (cols mt_unrel))
         /\ (s c ∉ ids)
         /\ (st !! pass_mt = None ->
             c ∈ cols mt
             /\ exists fs, qc_metrics_filters c = Some fs
                           /\ fs ∖ bad_sample_filters mt = ∅).
Proof.
  intros Hrun Hmt Hun Ht Hids.
  apply ref_filtering_inr in Hrun
    as (mt0 & mt_pass & st1 & mt_unrel0 & t0 & ids0
        & Hmt0 & Hck & Hun0 & Ht0 & Hids0 & _ & ->).
  rewrite Hmt in Hmt0. injection Hmt0 as <-.
  assert (st1 !! unrel = st !! unrel /\ st1 !! outliers = st !! outliers
          /\ (st !! pass_mt = None ->
              mt_pass = hl.filter_cols mt (qc_pass (bad_sample_filters mt))))
    as (Eun & Eout & Epass).
  { apply checkpoint_inr in Hck as [(_ & Hold & ->)|(Hnone & _ & -> & ->)].
    - repeat split; auto. intros Hn. rewrite Hn in Hold. discriminate.
    - destruct Hnone as [Hf|Hnone]; [discriminate|].
      repeat split; auto; apply lookup_insert_ne; intros <-; congruence. }
  rewrite Eun, Hun in Hun0. injection Hun0 as <-.
  rewrite Eout, Ht in Ht0. injection Ht0 as <-.
  rewrite Hids in Hids0. injection Hids0 as <-.
  eexists. split; [apply lookup_insert_eq|].
  intros c Hc.
  apply elem_of_filter_cols in Hc as [Hc Hno].
  apply elem_of_filter_cols in Hc as [Hc Hu].
  rewrite filter_rows_cols in Hc.
  unfold not_outlier in Hno. unfold is_unrelated in Hu.
  injection Hno as Hno%bool_decide_eq_true.
  injection Hu as Hu%bool_decide_eq_true.
  repeat split; auto.
  - rewrite (Epass H) in Hc. by apply elem_of_filter_cols in Hc as [Hc _].
  - rewrite (Epass H) in Hc. apply elem_of_filter_cols in Hc as [_ Hq].
    by apply qc_pass_true.
Qed.

Example ref_filtering_scenario :
  (ref_filtering "ref.mt" "pass.mt" "unrel.mt" "outliers.txt" "pu.mt" false Toy.store).2
    !! "pu.mt"
  = Some (MatrixFile
            (mkMT Toy.fields [Toy.S2]
               [mkRow (mkLocus "chr1" 1065 GRCh38) ["A"; "G"] (Some ∅) [Toy.hom_ref];
                mkRow (mkLocus "chr1" 1165 GRCh38) ["G"; "A"] (Some ∅) [None]])).
Proof. vm_compute. reflexivity. Qed.

(** The claim of C2 fails when a matrix is already stored at the
    QC-pass path: with the overwrite flag set the stage still takes it
    over, and sample [S1], whose failure [contamination] is not an
    exempted category, is kept. *)
Lemma ref_filtering_keeps_failing_sample :
  exists st' out,
    ref_filtering "ref.mt" "pass.mt" "unrel.mt" "outliers.txt" "pu.mt" true
      Toy.store_with_pass = (inr tt, st')
    /\ st' !! "pu.mt" = Some (MatrixFile out)
    /\ cols out = [Toy.S1; Toy.S2]
    /\ qc_metrics_filters Toy.S1 = Some {["contamination"]}
    /\ ({["contamination"]} : gset string) ∖ bad_sample_filters Toy.ref <> ∅.
Proof.
  eexists _, (mkMT Toy.fields [Toy.S1; Toy.S2] _).
  split; [vm_compute; reflexivity|].
  split; [vm_compute; reflexivity|].
  split; [reflexivity|]. split; [reflexivity|].
  intros H. apply (f_equal size) in H. vm_compute in H. discriminate.
Qed.

Lemma ref_filtering_retained_witness :
  exists out,
    (ref_filtering "ref.mt" "pass.mt" "unrel.mt" "outliers.txt" "pu.mt" false
       Toy.store).2 !! "pu.mt" = Some (MatrixFile out)
    /\ forall c, c ∈ cols out ->
         (s c ∈ map s (cols Toy.unrel))
         /\ (s c ∉ ["S3"])
         /\ (Toy.store !! "pass.mt" = None ->
             c ∈ cols Toy.ref
             /\ exists fs, qc_metrics_filters c = Some fs
                           /\ fs ∖ bad_sample_filters Toy.ref = ∅).
Proof.
  apply (ref_filtering_retained "ref.mt" "pass.mt" "unrel.mt" "outliers.txt" "pu.mt"
           false Toy.store _ Toy.ref Toy.unrel Toy.outliers ["S3"]).
  - vm_compute. reflexivity.
  - reflexivity.
  - reflexivity.
  - reflexivity.
  - reflexivity.
Defined.

(** ** Allele frequencies *)

Lemma sum_alt_bounds (l : list Call) :
  (0 <= hl.sum_Z (map n_alt_alleles l) <= 2 * Z.of_nat (length l))%Z.
Proof.
  induction l as [|c l IH]; simpl; [lia|].
  unfold n_alt_alleles at 1 3.
  destruct (decide (allele1 c = 0%nat)), (decide (allele2 c = 0%nat)); lia.
Qed.

Lemma sum_ref_alt (l : list Call) :
  (hl.sum_Z (map hl.n_ref_alleles l)
   = 2 * Z.of_nat (length l) - hl.sum_Z (map n_alt_alleles l))%Z.
Proof.
  induction l as [|c l IH]; simpl; [lia|].
  rewrite IH. unfold hl.n_ref_alleles, n_alt_alleles at 2.
  destruct (decide (allele1 c = 0%nat)), (decide (allele2 c = 0%nat)); lia.
Qed.

Lemma gt_true x y : hl.gt x y = true <-> (y < x)%Q.
Proof.
  unfold hl.gt. rewrite negb_true_iff, <- not_true_iff_false, Qle_bool_iff.
  split; [apply Qnot_le_lt | apply Qlt_not_le].
Qed.

Lemma lt_true x y : hl.lt x y = true <-> (x < y)%Q.
Proof. apply gt_true. Qed.

Lemma and_true a b : hl.and_ a b = Some true <-> a = Some true /\ b = Some true.
Proof. destruct a as [[]|], b as [[]|]; simpl; intuition congruence. Qed.

(** The test of line 60 is on [AF[0]], the reference allele
    frequency; it bounds the alternate allele frequency by the same
    interval, the two summing to one. *)
Lemma af_pass_frequency r :
  af_pass r = Some true ->
  exists p, row_pca_af r = Some p /\ (0.001 < p)%Q /\ (p < 0.999)%Q
            /\ exists q, hl.variant_qc_AF0 r = Some q /\ (q == 1 - p)%Q.
Proof.
  unfold af_pass. intros [H1 H2]%and_true. revert H1 H2.
  unfold row_pca_af, hl.variant_qc_AF0, hl.agg_mean.
  rewrite length_map.
  pose proof (sum_alt_bounds (hl.called (GT r))) as Hb.
  pose proof (sum_ref_alt (hl.called (GT r))) as Hs.
  destruct (length (hl.called (GT r))) as [|n] eqn:En; [discriminate|].
  simpl. intros [= H1%gt_true] [= H2%lt_true].
  eexists. split; [reflexivity|].
  rewrite Hs in H1, H2. rewrite Hs.
  set (a := hl.sum_Z (map n_alt_alleles (hl.called (GT r)))) in *.
  assert (Z.pos (Pos.of_succ_nat n) = Z.of_nat (S n)) as HN by lia.
  repeat split.
  - unfold Qlt, Qdiv, Qmult, Qinv in *. simpl in *. lia.
  - unfold Qlt, Qdiv, Qmult, Qinv in *. simpl in *. lia.
  - eexists. split; [reflexivity|].
    unfold Qeq, Qminus, Qplus, Qopp, Qdiv, Qmult, Qinv. simpl. lia.
Qed.

(** C10. For a variant with at least one non-missing call, the
    [pca_af] annotation of line 79 (mean number of alternate alleles
    over the non-missing calls, halved) is defined and lies in the
    closed interval from 0 to 1. *)
Theorem pca_af_range r :
  (exists c, Some c ∈ GT r) ->
  exists p, row_pca_af r = Some p /\ (0 <= p)%Q /\ (p <= 1)%Q.
Proof.
  intros [c Hc].
  assert (c ∈ hl.called (GT r)) as Hin.
  { unfold hl.called. apply list_elem_of_omap. exists (Some c). auto. }
  unfold row_pca_af, hl.agg_mean. rewrite length_map.
  pose proof (sum_alt_bounds (hl.called (GT r))) as Hb.
  destruct (length (hl.called (GT r))) as [|n] eqn:En.
  { destruct (hl.called (GT r)); [by apply elem_of_nil in Hin | discriminate]. }
  simpl. eexists. split; [reflexivity|].
  set (a := hl.sum_Z (map n_alt_alleles (hl.called (GT r)))) in *.
  unfold Qle, Qdiv, Qmult, Qinv. simpl. lia.
Qed.

Lemma pca_af_range_witness :
  (exists c, Some c ∈ GT Toy.v2)
  /\ exists p, row_pca_af Toy.v2 = Some p /\ (0 <= p)%Q /\ (p <= 1)%Q.
Proof.
  assert (exists c, Some c ∈ GT Toy.v2) as H.
  { exists (mkCall 0 1). simpl. apply list_elem_of_here. }
  split; [exact H|]. exact (pca_af_range Toy.v2 H).
Defined.

Example pca_af_v2 : row_pca_af Toy.v2 = Some (3 # 4)%Q.
Proof. reflexivity. Qed.

(** ** The LD pruning stage *)

Section LdPrune.

Variable ld_prune : MatrixTable -> Q -> Z -> HailError + list RowKey.

(** What a successful run has read and written. *)
Lemma ld_prune_filter_inr intersect_out prune_out ow st st' :
  ld_prune_filter ld_prune intersect_out prune_out ow st = (inr tt, st') ->
  exists mt kept,
    st !! intersect_out = Some (MatrixFile mt)
    /\ ld_prune (hl.filter_rows mt af_pass) 0.8%Q 500000%Z = inr kept
    /\ (ow = true \/ st !! prune_out = None)
    /\ st' = <[prune_out :=
                 MatrixFile (filter_rows_in (hl.filter_rows mt af_pass) kept)]> st.
Proof.
  unfold ld_prune_filter.
  intros (mt & s0 & [Hmt ->]%read_matrix_table_inr & H)%bind_inr.
  apply bind_inr in H as (kept & s1 & [Hk ->]%lift_inr & H).
  apply write_inr in H as [-> Hw].
  exists mt, kept. auto.
Qed.

(** C4. Every variant of the matrix written by the stage has an
    alternate allele frequency, over its non-missing calls, strictly
    between 0.001 and 0.999. *)
Theorem ld_prune_filter_frequency intersect_out prune_out ow st st' :
  ld_prune_filter ld_prune intersect_out prune_out ow st = (inr tt, st') ->
  exists out,
    st' !! prune_out = Some (MatrixFile out)
    /\ forall r, r ∈ rows out ->
         exists p, row_pca_af r = Some p /\ (0.001 < p)%Q /\ (p < 0.999)%Q.
Proof.
  intros (mt & kept & Hmt & Hk & Hw & ->)%ld_prune_filter_inr.
  eexists. split; [apply lookup_insert_eq|].
  intros r Hr.
  apply elem_of_filter_rows_in in Hr as [Hr _].
  apply elem_of_filter_rows in Hr as [_ Hr].
  apply af_pass_frequency in Hr as (p & Hp & Hlo & Hhi & _). eauto.
Qed.

End LdPrune.

Example toy_r2_values :
  Toy.r2 (GT Toy.v1) (GT Toy.v5) = 1%Q /\ Toy.r2 (GT Toy.v1) (GT Toy.v4) = (1 # 4)%Q.
Proof. split; vm_compute; reflexivity. Qed.

Example ld_prune_filter_scenario :
  ld_prune_filter Toy.ld_prune "intersect.mt" "prune.mt" false Toy.store_ld
  = (inr tt, <["prune.mt" := MatrixFile Toy.pruned]> Toy.store_ld).
Proof. vm_compute. reflexivity. Qed.

Lemma ld_prune_filter_frequency_witness :
  exists out,
    (<["prune.mt" := MatrixFile Toy.pruned]> Toy.store_ld) !! "prune.mt"
    = Some (MatrixFile out)
    /\ forall r, r ∈ rows out ->
         exists p, row_pca_af r = Some p /\ (0.001 < p)%Q /\ (p < 0.999)%Q.
Proof.
  apply (ld_prune_filter_frequency Toy.ld_prune "intersect.mt" "prune.mt" false
           Toy.store_ld).
  vm_compute. reflexivity.
Defined.

(** ** The PCA stage *)




Lemma traverse_inr {A B} (f : A -> HailError + B) xs ys :
  traverse f xs = inr ys -> Forall2 (fun x y => f x = inr y) xs ys.
Proof.
  revert ys. induction xs as [|x xs IH]; simpl; intros ys.
  - intros [= <-]. constructor.
  - destruct (f x) as [e|y] eqn:Ef; simpl; [discriminate|].
    destruct (traverse f xs) as [e|ys'] eqn:Et; simpl; [discriminate|].
    intros [= <-]. constructor; auto.
Qed.


Lemma traverse_inr_with {A B} (f : A -> HailError + B) (P : A -> Prop)
    (R : A -> B -> Prop) xs ys :
  traverse f xs = inr ys -> Forall P xs ->
  (forall x y, P x -> f x = inr y -> R x y) ->
  Forall2 R xs ys.
Proof.
  intros Ht HP HR. apply traverse_inr in Ht.
  induction Ht as [|x y xs ys Hxy _ IH]; [constructor|].
  apply Forall_cons in HP as [Hx HP]. constructor; auto.
Qed.



Example pc_names_literal :
  pc_names = ["PC1"; "PC2"; "PC3"; "PC4"; "PC5"; "PC6"; "PC7"; "PC8"; "PC9"; "PC10";
              "PC11"; "PC12"; "PC13"; "PC14"; "PC15"; "PC16"; "PC17"; "PC18"; "PC19";
              "PC20"].
Proof. reflexivity. Qed.







Section Pca.

Variable engine : MatrixTable -> nat -> HailError + PcaOutput.






End Pca.

Example run_pca_plink_header :
  (run_pca Toy.hwe_normalized_pca "prune.mt" "pca/" false Toy.store_pca).2
    !! "pca/loadings.plink.tsv"
  = Some (TextFile
            {| header := "ID" :: "ALT" :: pc_names;
               body := [CStr "chr1:1065:A:G" :: CStr "G" :: replicate 20 (CFloat 0)] |}).
Proof. vm_compute. reflexivity. Qed.

Example run_pca_afreq :
  (run_pca Toy.hwe_normalized_pca "prune.mt" "pca/" false Toy.store_pca).2
    !! "pca/loadings.plink.afreq"
  = Some (TextFile
            {| header := ["#ID"; "REF"; "ALT"; "ALT1_FREQ"];
               body := [[CStr "chr1:1065:A:G"; CStr "A"; CStr "G"; CFloat (10 # 40)]] |}).
Proof. vm_compute. reflexivity. Qed.



(** ** The overwrite flag, stage by stage *)





Lemma keeps_ret {A} path a (x : A) : keeps path a (ret x).
Proof. by intros st Hst. Qed.







Lemma ref_filtering_run ref_mt pass_mt unrel outliers pass_unrel_mt st
    mt mt_pass mt_unrel t ids :
  st !! ref_mt = Some (MatrixFile mt) ->
  st !! pass_mt = Some (MatrixFile mt_pass) ->
  st !! unrel = Some (MatrixFile mt_unrel) ->
  st !! outliers = Some (TextFile t) ->
  hl.key_by_str "s" t = inr ids ->
  ref_filtering ref_mt pass_mt unrel outliers pass_unrel_mt true st
  = (inr tt,
     <[pass_unrel_mt :=
         MatrixFile (hl.filter_cols
                       (hl.filter_cols (hl.filter_rows mt_pass variant_pass)
                          (is_unrelated mt_unrel))
                       (not_outlier ids))]> st).
Proof.
  intros Hmt Hp Hu Ht Hids. unfold ref_filtering.
  rewrite (bind_run _ _ _ _ _ (read_matrix_table_run _ _ _ Hmt)).
  rewrite (bind_run _ _ _ _ _ (checkpoint_reuse _ _ _ _ _ Hp)).
  rewrite (bind_run _ _ _ _ _ (read_matrix_table_run _ _ _ Hu)).
  unfold bind at 1. unfold hl.import_table. rewrite Ht.
  unfold bind at 1. unfold lift. rewrite Hids.
  apply write_overwrite.
Qed.

Section OverwriteFlag.

Variable chain : ReferenceGenome -> ReferenceGenome -> string -> Z -> option (string * Z).
Variable ld_prune : MatrixTable -> Q -> Z -> HailError + list RowKey.
Variable engine : MatrixTable -> nat -> HailError + PcaOutput.






End OverwriteFlag.



(** ** Failures and footprints of the stages *)

Lemma checkpoint_inl mt path ow rie st e st' :
  hl.checkpoint mt path ow rie st = (inl e, st') -> st' = st.
Proof.
  unfold hl.checkpoint, bind, hl.write, hl.read_matrix_table.
  destruct (negb rie || negb (hl.exists_ path st)).
  - destruct (negb ow && hl.exists_ path st); [by intros [= _ <-]|].
    rewrite lookup_insert_eq. discriminate.
  - destruct (st !! path) as [[]|]; intros [=]; by subst.
Qed.

Lemma only_writes_bind {A B} paths (m : Hail A) (k : A -> Hail B) :
  only_writes paths m -> (forall x, only_writes paths (k x)) ->
  only_writes paths (bind m k).
Proof.
  intros Hm Hk st p Hp. unfold bind.
  specialize (Hm st p Hp). destruct (m st) as [[e|x] st1]; [exact Hm|].
  simpl in Hm. rewrite <- Hm. by apply Hk.
Qed.

Lemma only_writes_read_matrix_table paths p : only_writes paths (hl.read_matrix_table p).
Proof. intros st q _. by rewrite read_matrix_table_store. Qed.

Lemma only_writes_import_table paths p : only_writes paths (hl.import_table p).
Proof. intros st q _. by rewrite import_table_store. Qed.

Lemma only_writes_read_scores paths p : only_writes paths (hl.read_scores p).
Proof. intros st q _. unfold hl.read_scores. by destruct (st !! p) as [[]|]. Qed.

Lemma only_writes_read_loadings paths p : only_writes paths (hl.read_loadings p).
Proof. intros st q _. unfold hl.read_loadings. by destruct (st !! p) as [[]|]. Qed.

Lemma only_writes_lift {A} paths (r : HailError + A) : only_writes paths (lift r).
Proof. by intros st q _. Qed.

Lemma only_writes_ret {A} paths (x : A) : only_writes paths (ret x).
Proof. by intros st q _. Qed.

Lemma only_writes_write paths a p ow : p ∈ paths -> only_writes paths (hl.write a p ow).
Proof.
  intros Hp st q Hq. unfold hl.write.
  destruct (negb ow && hl.exists_ p st); simpl; [done|].
  apply lookup_insert_ne. intros ->. done.
Qed.

Lemma only_writes_export paths t p : p ∈ paths -> only_writes paths (hl.export t p).
Proof.
  intros Hp st q Hq. unfold hl.export. destruct t; simpl; [done|].
  apply lookup_insert_ne. intros ->. done.
Qed.

Lemma only_writes_checkpoint paths mt p ow rie :
  p ∈ paths -> only_writes paths (hl.checkpoint mt p ow rie).
Proof.
  intros Hp st q Hq. unfold hl.checkpoint.
  destruct (negb rie || negb (hl.exists_ p st)).
  - apply (only_writes_bind paths); [by apply only_writes_write | |done].
    intros _. apply only_writes_read_matrix_table.
  - by rewrite read_matrix_table_store.
Qed.

Section Footprint.

Variable chain : ReferenceGenome -> ReferenceGenome -> string -> Z -> option (string * Z).
Variable ld_prune : MatrixTable -> Q -> Z -> HailError + list RowKey.
Variable engine : MatrixTable -> nat -> HailError + PcaOutput.

(** X1. A stage started without its input matrix fails with
    [FileNotFound] on that path and leaves the files as they are. *)
Theorem stage_missing_input (st : Store) path :
  st !! path = None ->
  (forall pass_mt unrel outliers pass_unrel_mt ow,
      ref_filtering path pass_mt unrel outliers pass_unrel_mt ow st
      = (inl (FileNotFound path), st))
  /\ (forall snp_list label out ow,
        intersect_target_ref chain path snp_list label out ow st
        = (inl (FileNotFound path), st))
  /\ (forall prune_out ow,
        ld_prune_filter ld_prune path prune_out ow st = (inl (FileNotFound path), st))
  /\ (forall prefix ow,
        run_pca engine path prefix ow st = (inl (FileNotFound path), st)).
Proof.
  intros H.
  assert (hl.read_matrix_table path st = (inl (FileNotFound path), st)) as Hr.
  { unfold hl.read_matrix_table. by rewrite H. }
  repeat split; intros;
    unfold ref_filtering, intersect_target_ref, ld_prune_filter, run_pca;
    by apply bind_fail.
Qed.

(** X2. A failed intersection or pruning stage has written nothing:
    the files are exactly those before the run. *)
Theorem failed_stage_writes_nothing st st' e :
  (forall ref_mt_filt snp_list label out ow,
      intersect_target_ref chain ref_mt_filt snp_list label out ow st = (inl e, st') ->
      st' = st)
  /\ (forall intersect_out prune_out ow,
        ld_prune_filter ld_prune intersect_out prune_out ow st = (inl e, st') ->
        st' = st).
Proof.
  split.
  - intros ref_mt_filt snp_list label out ow. unfold intersect_target_ref, bind.
    pose proof (read_matrix_table_store ref_mt_filt st) as Hs.
    destruct (hl.read_matrix_table ref_mt_filt st) as [[e0|mt] s0]; simpl in Hs; subst s0;
      [by intros [= _ <-]|].
    destruct (hl.checkpoint _ out ow (negb ow) st) as [[e1|m] s1] eqn:Hc; [|discriminate].
    intros [= _ <-]. by apply checkpoint_inl in Hc.
  - intros intersect_out prune_out ow. unfold ld_prune_filter, bind, lift.
    pose proof (read_matrix_table_store intersect_out st) as Hs.
    destruct (hl.read_matrix_table intersect_out st) as [[e0|mt] s0]; simpl in Hs; subst s0;
      [by intros [= _ <-]|].
    destruct (ld_prune _ _ _) as [e1|kept]; [by intros [= _ <-]|].
    unfold hl.write. destruct (negb ow && hl.exists_ prune_out st); [by intros [= _ <-]|].
    discriminate.
Qed.

(** X3. Whatever its outcome, a stage changes no path other than
    its own outputs: the QC stage its two matrices, the intersection and
    pruning stages their output matrix, the PCA stage its six files
    under the prefix.  In particular the inputs are never modified. *)
Theorem stage_footprint :
  (forall ref_mt pass_mt unrel outliers pass_unrel_mt ow,
      only_writes [pass_mt; pass_unrel_mt]
        (ref_filtering ref_mt pass_mt unrel outliers pass_unrel_mt ow))
  /\ (forall ref_mt_filt snp_list label out ow,
        only_writes [out] (intersect_target_ref chain ref_mt_filt snp_list label out ow))
  /\ (forall intersect_out prune_out ow,
        only_writes [prune_out] (ld_prune_filter ld_prune intersect_out prune_out ow))
  /\ (forall prune_out prefix ow,
        only_writes (map (String.append prefix)
                       ["scores.ht"; "scores.txt.bgz"; "loadings.txt.bgz";
                        "loadings.ht"; "loadings.plink.tsv"; "loadings.plink.afreq"])
          (run_pca engine prune_out prefix ow)).
Proof.
  repeat split.
  - intros. unfold ref_filtering.
    apply only_writes_bind; [apply only_writes_read_matrix_table|]. intros mt.
    apply only_writes_bind; [apply only_writes_checkpoint; set_solver|]. intros mt_pass.
    apply only_writes_bind; [apply only_writes_read_matrix_table|]. intros mt_unrel.
    apply only_writes_bind; [apply only_writes_import_table|]. intros t.
    apply only_writes_bind; [apply only_writes_lift|]. intros ids.
    apply only_writes_write. set_solver.
  - intros. unfold intersect_target_ref.
    apply only_writes_bind; [apply only_writes_read_matrix_table|]. intros mt.
    apply only_writes_bind; [apply only_writes_checkpoint; set_solver|]. intros m.
    apply only_writes_ret.
  - intros. unfold ld_prune_filter.
    apply only_writes_bind; [apply only_writes_read_matrix_table|]. intros mt.
    apply only_writes_bind; [apply only_writes_lift|]. intros kept.
    apply only_writes_write. set_solver.
  - intros. unfold run_pca.
    apply only_writes_bind; [apply only_writes_read_matrix_table|]. intros mt.
    apply only_writes_bind; [apply only_writes_lift|]. intros [[evals sc] ld].
    apply only_writes_bind; [apply only_writes_write; simpl; set_solver|]. intros _.
    apply only_writes_bind; [apply only_writes_read_scores|]. intros sc'.
    apply only_writes_bind; [apply only_writes_export; simpl; set_solver|]. intros _.
    apply only_writes_bind; [apply only_writes_export; simpl; set_solver|]. intros _.
    apply only_writes_bind; [apply only_writes_write; simpl; set_solver|]. intros _.
    apply only_writes_bind; [apply only_writes_read_loadings|]. intros ht.
    apply only_writes_bind; [apply only_writes_export; simpl; set_solver|]. intros _.
    apply only_writes_export. simpl. set_solver.
Qed.

End Footprint.

Lemma stage_missing_input_witness :
  (∅ : Store) !! "intersect.mt" = None
  /\ ld_prune_filter Toy.ld_prune "intersect.mt" "prune.mt" false ∅
     = (inl (FileNotFound "intersect.mt"), ∅).
Proof.
  split; [apply lookup_empty|].
  destruct (stage_missing_input Toy.chain Toy.ld_prune Toy.hwe_normalized_pca
              ∅ "intersect.mt" (lookup_empty _)) as (_ & _ & H & _).
  apply H.
Defined.

Lemma failed_stage_writes_nothing_witness :
  (ld_prune_filter Toy.ld_prune "intersect.mt" "prune.mt" false
     (<["prune.mt" := MatrixFile Toy.pruned]> Toy.store_ld)).2
  = <["prune.mt" := MatrixFile Toy.pruned]> Toy.store_ld.
Proof.
  apply (proj2 (failed_stage_writes_nothing Toy.chain Toy.ld_prune
                  (<["prune.mt" := MatrixFile Toy.pruned]> Toy.store_ld) _
                  (FileAlreadyExists "prune.mt"))
           "intersect.mt" "prune.mt" false).
  vm_compute. reflexivity.
Defined.

Lemma stage_footprint_witness :
  (ref_filtering "ref.mt" "pass.mt" "unrel.mt" "outliers.txt" "pu.mt" false
     Toy.store).2 !! "ref.mt" = Toy.store !! "ref.mt".
Proof.
  destruct (stage_footprint Toy.chain Toy.ld_prune Toy.hwe_normalized_pca) as (H & _).
  apply H. rewrite !not_elem_of_cons.
  repeat split; try discriminate. apply not_elem_of_nil.
Defined.

(** ** More on the QC stage *)

Lemma filter_cols_rows mt p r :
  r ∈ rows (hl.filter_cols mt p) ->
  exists r0, r0 ∈ rows mt /\ locus r = locus r0 /\ alleles r = alleles r0
             /\ filters r = filters r0
             /\ GT r = hl.mask_filter (map (fun c => hl.keep (p c)) (cols mt)) (GT r0).
Proof.
  unfold hl.filter_cols. simpl. intros (r0 & -> & Hr0)%list_elem_of_fmap.
  exists r0. auto.
Qed.

Lemma variant_pass_true r : variant_pass r = Some true <-> filters r = Some ∅.
Proof.
  unfold variant_pass. destruct (filters r) as [fs|]; simpl.
  - split.
    + intros [= H%bool_decide_eq_true]. f_equal.
      apply leibniz_equiv. by apply size_empty_inv.
    + intros [= ->]. reflexivity.
  - split; intros H; discriminate H.
Qed.

(** X4. Every variant of the matrix written by the QC stage has an
    empty variant filter set, also when the stage went on from a
    matrix found at the QC-pass path. *)
Theorem ref_filtering_variants_pass
    ref_mt pass_mt unrel outliers pass_unrel_mt ow st st' :
  ref_filtering ref_mt pass_mt unrel outliers pass_unrel_mt ow st = (inr tt, st') ->
  exists out,
    st' !! pass_unrel_mt = Some (MatrixFile out)
    /\ forall r, r ∈ rows out -> filters r = Some ∅.
Proof.
  intros (mt & mt_pass & st1 & mt_unrel & t & ids & _ & _ & _ & _ & _ & _ & ->)
    %ref_filtering_inr.
  eexists. split; [apply lookup_insert_eq|].
  intros r (r1 & Hr1 & _ & _ & -> & _)%filter_cols_rows.
  apply filter_cols_rows in Hr1 as (r0 & Hr0 & _ & _ & -> & _).
  apply elem_of_filter_rows in Hr0 as [_ Hr0]. by apply variant_pass_true.
Qed.

(** X5. Running the QC stage again with the overwrite flag, on the
    files a successful run left, succeeds and leaves them as they are,
    provided the output path is none of the other four paths. *)
Theorem ref_filtering_rerun
    ref_mt pass_mt unrel outliers pass_unrel_mt ow st st1 :
  ref_filtering ref_mt pass_mt unrel outliers pass_unrel_mt ow st = (inr tt, st1) ->
  pass_unrel_mt ∉ [ref_mt; pass_mt; unrel; outliers] ->
  ref_filtering ref_mt pass_mt unrel outliers pass_unrel_mt true st1 = (inr tt, st1).
Proof.
  intros (mt & mt_pass & st0 & mt_unrel & t & ids & Hmt & Hck & Hun & Ht & Hids & _ & ->)
    %ref_filtering_inr Hne.
  assert (pass_unrel_mt <> ref_mt /\ pass_unrel_mt <> pass_mt
          /\ pass_unrel_mt <> unrel /\ pass_unrel_mt <> outliers) as (N1 & N2 & N3 & N4).
  { repeat split; intros ->; apply Hne; set_solver. }
  assert (st0 !! ref_mt = Some (MatrixFile mt)
          /\ st0 !! pass_mt = Some (MatrixFile mt_pass)) as [Hmt0 Hp0].
  { apply checkpoint_inr in Hck as [(_ & Hold & ->)|(Hnone & _ & -> & ->)].
    - auto.
    - destruct Hnone as [Hf|Hnone]; [discriminate|]. split.
      + rewrite lookup_insert_ne; [done|]. intros <-. congruence.
      + apply lookup_insert_eq. }
  erewrite ref_filtering_run.
  - by rewrite insert_insert_eq.
  - by rewrite lookup_insert_ne.
  - by rewrite lookup_insert_ne.
  - by rewrite lookup_insert_ne.
  - by rewrite lookup_insert_ne.
  - done.
Qed.

(** ** More on the intersection stage *)

Section IntersectionMore.

Variable chain : ReferenceGenome -> ReferenceGenome -> string -> Z -> option (string * Z).

Lemma intersect_target_ref_inr ref_mt_filt snp_list label out ow st st' :
  intersect_target_ref chain ref_mt_filt snp_list label out ow st = (inr tt, st') ->
  exists mt m,
    st !! ref_mt_filt = Some (MatrixFile mt)
    /\ hl.checkpoint (intersect_filter chain mt snp_list label) out ow (negb ow) st
       = (inr m, st').
Proof.
  unfold intersect_target_ref, repartition.
  intros (mt & s0 & [Hmt ->]%read_matrix_table_inr & H)%bind_inr.
  apply bind_inr in H as (m & s1 & Hck & [= <-]).
  eauto.
Qed.

(** X6. Once the intersection stage has succeeded, a later run with
    the flag unset only reuses the stored matrix: it succeeds and
    changes nothing, whatever SNP list and label it is given. *)
Theorem intersect_rerun_reuses ref_mt_filt snp_list label out ow st st1 :
  intersect_target_ref chain ref_mt_filt snp_list label out ow st = (inr tt, st1) ->
  out <> ref_mt_filt ->
  forall snp_list' label',
    intersect_target_ref chain ref_mt_filt snp_list' label' out false st1 = (inr tt, st1).
Proof.
  intros (mt & m & Hmt & Hck)%intersect_target_ref_inr Hne snp_list' label'.
  apply checkpoint_inr in Hck as [(_ & Hold & ->)|(_ & _ & -> & ->)].
  - by eapply intersect_target_ref_reuse.
  - eapply intersect_target_ref_reuse.
    + by rewrite lookup_insert_ne.
    + apply lookup_insert_eq.
Qed.

Lemma List_filter_idemp {A} (f : A -> bool) (l : list A) :
  List.filter f (List.filter f l) = List.filter f l.
Proof.
  induction l as [|x l IH]; simpl; [reflexivity|].
  destruct (f x) eqn:E; simpl; [rewrite E, IH|]; done.
Qed.

Lemma filter_rows_in_idemp mt keys :
  filter_rows_in (filter_rows_in mt keys) keys = filter_rows_in mt keys.
Proof.
  unfold filter_rows_in, hl.filter_rows. simpl. f_equal. apply List_filter_idemp.
Qed.

Lemma intersect_filter_cases snp_list label :
  (exists keys, forall m, intersect_filter chain m snp_list label = filter_rows_in m keys)
  \/ (forall m, intersect_filter chain m snp_list label = m).
Proof.
  unfold intersect_filter.
  destruct (String.eqb (PyStr.lower label) "grch38"); [left; eauto|].
  destruct (String.eqb (PyStr.lower label) "grch37"); [left; eauto | right; auto].
Qed.

(** X7. Intersecting twice with the same SNP list is intersecting
    once, and a longer SNP list never loses a variant: every row kept
    with a list is kept with any list that contains its entries. *)
Theorem intersect_filter_idempotent_monotone mt snp_list label :
  intersect_filter chain (intersect_filter chain mt snp_list label) snp_list label
  = intersect_filter chain mt snp_list label
  /\ forall snp_list' r,
       snp_list ⊆ snp_list' ->
       r ∈ rows (intersect_filter chain mt snp_list label) ->
       r ∈ rows (intersect_filter chain mt snp_list' label).
Proof.
  split.
  - destruct (intersect_filter_cases snp_list label) as [[keys H]|H].
    + rewrite !H. apply filter_rows_in_idemp.
    + by rewrite !H.
  - intros snp_list' r Hsub. unfold intersect_filter.
    destruct (String.eqb (PyStr.lower label) "grch38").
    { rewrite !elem_of_filter_rows_in. intros [Hr Hk]. split; [done|].
      unfold key_by_locus_alleles in *.
      apply list_elem_of_fmap in Hk as (e & -> & He).
      apply list_elem_of_fmap. eauto. }
    destruct (String.eqb (PyStr.lower label) "grch37"); [|done].
    unfold load_liftover. cbv beta iota zeta.
    rewrite !elem_of_filter_rows_in. intros [Hr Hk]. split; [done|].
    unfold snp_liftover, key_by_locus_alleles in *.
    apply list_elem_of_omap in Hk as (k & (e & -> & He)%list_elem_of_fmap & Hl).
    apply list_elem_of_omap. eexists. split; [|exact Hl].
    apply list_elem_of_fmap. eauto.
Qed.

(** X8. With a recognised label an empty SNP list keeps no variant
    at all (and every sample). *)
Theorem intersect_empty_snp_list mt label rg :
  recognised label rg ->
  rows (intersect_filter chain mt [] label) = []
  /\ cols (intersect_filter chain mt [] label) = cols mt.
Proof.
  intros Hl.
  assert (intersect_filter chain mt [] label = filter_rows_in mt []) as ->.
  { destruct rg; simpl in Hl.
    - by rewrite intersect_filter_grch37.
    - by rewrite intersect_filter_grch38. }
  split; [|reflexivity].
  destruct (rows (filter_rows_in mt [])) as [|r l] eqn:E; [reflexivity|].
  assert (r ∈ rows (filter_rows_in mt [])) as Hr by (rewrite E; apply list_elem_of_here).
  apply elem_of_filter_rows_in in Hr as [_ Hk]. by apply elem_of_nil in Hk.
Qed.

(** X9. With a recognised label every variant kept has exactly two
    alleles and a locus on GRCh38. *)
Theorem intersect_keeps_biallelic_grch38 mt snp_list label rg r :
  recognised label rg ->
  r ∈ rows (intersect_filter chain mt snp_list label) ->
  length (alleles r) = 2%nat /\ reference_genome (locus r) = GRCh38.
Proof.
  intros Hl Hr.
  assert (exists e, panel_key chain rg e (row_key r)) as [e He].
  { destruct rg; simpl in Hl.
    - rewrite (intersect_filter_grch37 _ _ _ _ Hl) in Hr.
      apply elem_of_filter_rows_in in Hr as [_ Hk].
      apply (elem_of_panel_keys chain snp_list GRCh37) in Hk as (e & _ & He). eauto.
    - rewrite (intersect_filter_grch38 _ _ _ _ Hl) in Hr.
      apply elem_of_filter_rows_in in Hr as [_ Hk].
      apply (elem_of_panel_keys chain snp_list GRCh38) in Hk as (e & _ & He). eauto. }
  unfold row_key in He. destruct rg; simpl in He.
  - destruct He as (c & p & _ & [= -> ->]). auto.
  - injection He as -> ->. auto.
Qed.

End IntersectionMore.

Lemma snp_liftover_agree chain1 chain2 snp_list :
  (forall c p, chain1 GRCh37 GRCh38 c p = chain2 GRCh37 GRCh38 c p) ->
  snp_liftover chain1 (key_by_locus_alleles snp_list GRCh37)
  = snp_liftover chain2 (key_by_locus_alleles snp_list GRCh37).
Proof.
  intros H. induction snp_list as [|e l IH]; [reflexivity|].
  change (key_by_locus_alleles (e :: l) GRCh37)
    with ((hl.locus (chr e) (pos e) GRCh37, [ref e; alt e])
            :: key_by_locus_alleles l GRCh37).
  unfold snp_liftover in *. cbn [omap list_omap].
  rewrite IH. unfold liftover. cbn [fst snd reference_genome contig position hl.locus].
  rewrite H. reflexivity.
Qed.

(** X10. Of the two chains [load_liftover] registers only the one
    from GRCh37 to GRCh38 is ever consulted: two chain maps that agree
    in that direction give the same intersection. *)
Theorem intersect_uses_grch37_to_grch38_only chain1 chain2 mt snp_list label :
  (forall c p, chain1 GRCh37 GRCh38 c p = chain2 GRCh37 GRCh38 c p) ->
  intersect_filter chain1 mt snp_list label = intersect_filter chain2 mt snp_list label.
Proof.
  intros H. unfold intersect_filter.
  destruct (String.eqb (PyStr.lower label) "grch38"); [reflexivity|].
  destruct (String.eqb (PyStr.lower label) "grch37"); [|reflexivity].
  unfold load_liftover. cbv beta iota zeta.
  by rewrite (snp_liftover_agree chain1 chain2).
Qed.

Lemma ref_filtering_variants_pass_witness :
  exists out,
    (ref_filtering "ref.mt" "pass.mt" "unrel.mt" "outliers.txt" "pu.mt" false
       Toy.store).2 !! "pu.mt" = Some (MatrixFile out)
    /\ forall r, r ∈ rows out -> filters r = Some ∅.
Proof.
  apply (ref_filtering_variants_pass "ref.mt" "pass.mt" "unrel.mt" "outliers.txt"
           "pu.mt" false Toy.store).
  vm_compute. reflexivity.
Defined.

Lemma ref_filtering_rerun_witness :
  ref_filtering "ref.mt" "pass.mt" "unrel.mt" "outliers.txt" "pu.mt" true
    (ref_filtering "ref.mt" "pass.mt" "unrel.mt" "outliers.txt" "pu.mt" false
       Toy.store).2
  = (inr tt,
     (ref_filtering "ref.mt" "pass.mt" "unrel.mt" "outliers.txt" "pu.mt" false
        Toy.store).2).
Proof.
  apply (ref_filtering_rerun "ref.mt" "pass.mt" "unrel.mt" "outliers.txt" "pu.mt"
           false Toy.store).
  - vm_compute. reflexivity.
  - rewrite !not_elem_of_cons. repeat split; try discriminate. apply not_elem_of_nil.
Defined.

Lemma intersect_rerun_reuses_witness :
  intersect_target_ref Toy.chain "ref.mt" [] "hg19" "out.mt" false
    (intersect_target_ref Toy.chain "ref.mt" Toy.snp_list38 "grch38" "out.mt" true
       Toy.store).2
  = (inr tt,
     (intersect_target_ref Toy.chain "ref.mt" Toy.snp_list38 "grch38" "out.mt" true
        Toy.store).2).
Proof.
  apply (intersect_rerun_reuses Toy.chain "ref.mt" Toy.snp_list38 "grch38" "out.mt"
           true Toy.store).
  - vm_compute. reflexivity.
  - discriminate.
Defined.

Lemma intersect_filter_idempotent_monotone_witness :
  Toy.v1 ∈ rows (intersect_filter Toy.chain Toy.ref
                   (mkSnp "chr2" 500 "C" "T" :: Toy.snp_list37) "GRCh37").
Proof.
  apply (proj2 (intersect_filter_idempotent_monotone Toy.chain Toy.ref
                  Toy.snp_list37 "GRCh37")).
  - intros e He. by apply list_elem_of_further.
  - rewrite intersect_grch37_scenario. apply list_elem_of_here.
Defined.

Lemma intersect_empty_snp_list_witness :
  recognised "grch38" GRCh38
  /\ rows (intersect_filter Toy.chain Toy.ref [] "grch38") = []
  /\ cols (intersect_filter Toy.chain Toy.ref [] "grch38") = cols Toy.ref.
Proof.
  split; [reflexivity|].
  exact (intersect_empty_snp_list Toy.chain Toy.ref "grch38" GRCh38 eq_refl).
Defined.

Lemma intersect_keeps_biallelic_grch38_witness :
  length (alleles Toy.v1) = 2%nat /\ reference_genome (locus Toy.v1) = GRCh38.
Proof.
  apply (intersect_keeps_biallelic_grch38 Toy.chain Toy.ref Toy.snp_list37 "GRCh37"
           GRCh37 Toy.v1).
  - reflexivity.
  - rewrite intersect_grch37_scenario. apply list_elem_of_here.
Defined.

Lemma intersect_uses_grch37_to_grch38_only_witness :
  intersect_filter Toy.chain Toy.ref Toy.snp_list37 "grch37"
  = intersect_filter ToyRun.chain_both Toy.ref Toy.snp_list37 "grch37".
Proof.
  apply intersect_uses_grch37_to_grch38_only. intros c p. reflexivity.
Defined.

Lemma elem_of_bad_sample_filters mt x :
  x ∈ bad_sample_filters mt <->
  exists f, f ∈ sample_filters_fields mt /\ PyStr.startswith "fail_" f = true
            /\ x = PyStr.re_sub_fail_ f.
Proof.
  unfold bad_sample_filters, all_sample_filters.
  rewrite elem_of_map. split.
  - intros (f & -> & [Hs Hf]%elem_of_filter). exists f.
    apply elem_of_list_to_set in Hf. auto.
  - intros (f & Hf & Hs & ->). exists f. split; [done|].
    apply elem_of_filter. split; [done|]. by apply elem_of_list_to_set.
Qed.

(** X18. The categories exempted by the QC filter are the names of
    all the [fail_] fields of the [sample_filters] schema, with every
    [fail_] removed: a sample passes exactly when its quality-metric
    failure set is defined and each failure in it is such a name. *)
Theorem qc_pass_exempts_fail_fields mt c :
  qc_pass (bad_sample_filters mt) c = Some true <->
  exists fs, qc_metrics_filters c = Some fs
    /\ forall x, x ∈ fs ->
         exists f, f ∈ sample_filters_fields mt /\ PyStr.startswith "fail_" f = true
                   /\ x = PyStr.re_sub_fail_ f.
Proof.
  rewrite qc_pass_true. split.
  - intros (fs & Hfs & Hd). exists fs. split; [done|].
    intros x Hx. apply elem_of_bad_sample_filters.
    destruct (decide (x ∈ bad_sample_filters mt)) as [Hin|Hout]; [done|].
    exfalso. apply (not_elem_of_empty (C := gset string) x).
    rewrite <- Hd. by apply elem_of_difference.
  - intros (fs & Hfs & Hall). exists fs. split; [done|].
    apply leibniz_equiv. apply elem_of_equiv_empty. intros x [Hx Hn]%elem_of_difference.
    apply Hn. apply elem_of_bad_sample_filters. auto.
Qed.

(** X19. When nothing is stored at the QC-pass path and the output
    path is a different one, a successful QC stage leaves there the
    matrix of the samples that pass the quality-metric filter, with
    every variant of the reference matrix: the variant filter is only
    applied after the checkpoint. *)
Theorem ref_filtering_creates_checkpoint
    ref_mt pass_mt unrel outliers pass_unrel_mt ow st st' mt :
  ref_filtering ref_mt pass_mt unrel outliers pass_unrel_mt ow st = (inr tt, st') ->
  st !! ref_mt = Some (MatrixFile mt) ->
  st !! pass_mt = None ->
  pass_unrel_mt <> pass_mt ->
  exists ckpt,
    st' !! pass_mt = Some (MatrixFile ckpt)
    /\ ckpt = hl.filter_cols mt (qc_pass (bad_sample_filters mt))
    /\ map row_key (rows ckpt) = map row_key (rows mt)
    /\ map filters (rows ckpt) = map filters (rows mt).
Proof.
  intros (mt0 & mt_pass & st0 & mt_unrel & t & ids & Hmt0 & Hck & _ & _ & _ & _ & ->)
    %ref_filtering_inr Hmt Hnone Hne.
  rewrite Hmt in Hmt0. injection Hmt0 as <-.
  apply checkpoint_inr in Hck as [(_ & Hold & _)|(_ & _ & -> & ->)]; [congruence|].
  eexists. split; [|split; [reflexivity|]].
  - rewrite lookup_insert_ne by done. apply lookup_insert_eq.
  - unfold hl.filter_cols. simpl. rewrite <- !list_fmap_compose. split; reflexivity.
Qed.

Lemma ref_filtering_creates_checkpoint_witness :
  exists ckpt,
    (ref_filtering "ref.mt" "pass.mt" "unrel.mt" "outliers.txt" "pu.mt" false
       Toy.store).2 !! "pass.mt" = Some (MatrixFile ckpt)
    /\ ckpt = hl.filter_cols Toy.ref (qc_pass (bad_sample_filters Toy.ref))
    /\ map row_key (rows ckpt) = map row_key (rows Toy.ref)
    /\ map filters (rows ckpt) = map filters (rows Toy.ref).
Proof.
  apply (ref_filtering_creates_checkpoint "ref.mt" "pass.mt" "unrel.mt" "outliers.txt"
           "pu.mt" false Toy.store _ Toy.ref).
  - vm_compute. reflexivity.
  - reflexivity.
  - reflexivity.
  - discriminate.
Defined.

(** ** More on frequencies and the pruning stage *)

(** X11. The reference allele frequency tested by the pruning stage
    and the [pca_af] exported by the PCA stage are defined on the same
    variants, those with a non-missing call, and sum to one. *)
Theorem af_complement r :
  match hl.variant_qc_AF0 r, row_pca_af r with
  | Some q, Some p => (q + p == 1)%Q
  | None, None => hl.called (GT r) = []
  | _, _ => False
  end.
Proof.
  unfold row_pca_af, hl.variant_qc_AF0, hl.agg_mean. rewrite length_map.
  pose proof (sum_ref_alt (hl.called (GT r))) as Hs.
  destruct (hl.called (GT r)) as [|c l] eqn:E; [reflexivity|].
  rewrite <- E in *.
  assert (length (hl.called (GT r)) = S (length l)) as Hl by (by rewrite E).
  rewrite Hl in *. simpl. rewrite Hs.
  set (a := hl.sum_Z (map n_alt_alleles (hl.called (GT r)))).
  unfold Qeq, Qplus, Qdiv, Qmult, Qinv. simpl. lia.
Qed.

Lemma af_pass_segregating r : af_pass r = Some true -> segregating r.
Proof.
  intros (p & Hp & Hlo & Hhi & _)%af_pass_frequency.
  unfold row_pca_af, hl.agg_mean in Hp. rewrite length_map in Hp.
  destruct (length (hl.called (GT r))) as [|n] eqn:En; [discriminate|].
  simpl in Hp. injection Hp as <-.
  set (a := hl.sum_Z (map n_alt_alleles (hl.called (GT r)))) in *.
  assert (0 < a < 2 * Z.of_nat (S n))%Z as Ha.
  { unfold Qlt, Qdiv, Qmult, Qinv in Hlo, Hhi. simpl in Hlo, Hhi. lia. }
  split.
  - destruct (decide (Exists (fun c => (0 < n_alt_alleles c)%Z) (hl.called (GT r))))
      as [Hex|Hno].
    + apply Exists_exists in Hex. exact Hex.
    + exfalso. apply not_Exists_Forall in Hno; [|intros c; apply _].
      assert (a = 0%Z); [|lia]. subst a.
      induction (hl.called (GT r)) as [|c l IH] in Hno |- *; simpl; [reflexivity|].
      apply Forall_cons in Hno as [Hc Hl]. simpl in Hc.
      pose proof (sum_alt_bounds [c]) as Hb. simpl in Hb. rewrite (IH Hl). lia.
  - destruct (decide (Exists (fun c => (n_alt_alleles c < 2)%Z) (hl.called (GT r))))
      as [Hex|Hno].
    + apply Exists_exists in Hex. exact Hex.
    + exfalso. apply not_Exists_Forall in Hno; [|intros c; apply _].
      assert (a = 2 * Z.of_nat (length (hl.called (GT r))))%Z; [|lia]. subst a.
      clear En Ha Hlo Hhi.
      induction (hl.called (GT r)) as [|c l IH] in Hno |- *; simpl; [reflexivity|].
      apply Forall_cons in Hno as [Hc Hl]. simpl in Hc.
      pose proof (sum_alt_bounds [c]) as Hb. simpl in Hb.
      specialize (IH Hl). simpl in IH. lia.
Qed.

Section LdPruneMore.

Variable ld_prune : MatrixTable -> Q -> Z -> HailError + list RowKey.

(** X12. The pruning stage only removes variants: the samples of the
    matrix it writes are those it read, the variants are a sub-sequence
    of those it read, calls included, and each has a key in the table
    the pruner returned. *)
Theorem ld_prune_filter_only_removes_rows intersect_out prune_out ow st st' :
  ld_prune_filter ld_prune intersect_out prune_out ow st = (inr tt, st') ->
  exists mt kept out,
    st !! intersect_out = Some (MatrixFile mt)
    /\ ld_prune (hl.filter_rows mt af_pass) 0.8%Q 500000%Z = inr kept
    /\ st' !! prune_out = Some (MatrixFile out)
    /\ sample_filters_fields out = sample_filters_fields mt
    /\ cols out = cols mt
    /\ sublist (rows out) (rows mt)
    /\ forall r, r ∈ rows out -> row_key r ∈ kept.
Proof.
  intros (mt & kept & Hmt & Hk & _ & ->)%ld_prune_filter_inr.
  exists mt, kept. eexists. split; [done|]. split; [done|].
  split; [apply lookup_insert_eq|]. split; [reflexivity|]. split; [reflexivity|].
  split.
  - unfold filter_rows_in, hl.filter_rows. simpl.
    etrans; apply List_filter_sublist.
  - by intros r [_ Hr]%elem_of_filter_rows_in.
Qed.

(** X13. Every variant written by the pruning stage has a called
    alternate allele and a called reference allele; a variant without a
    non-missing call, or with the same homozygous call throughout, is
    never written. *)
Theorem ld_prune_filter_segregating intersect_out prune_out ow st st' :
  ld_prune_filter ld_prune intersect_out prune_out ow st = (inr tt, st') ->
  exists out,
    st' !! prune_out = Some (MatrixFile out)
    /\ forall r, r ∈ rows out ->
         segregating r
         /\ hl.called (GT r) <> []
         /\ ~ Forall (fun c => n_alt_alleles c = 0%Z) (hl.called (GT r))
         /\ ~ Forall (fun c => n_alt_alleles c = 2%Z) (hl.called (GT r)).
Proof.
  intros (mt & kept & Hmt & Hk & _ & ->)%ld_prune_filter_inr.
  eexists. split; [apply lookup_insert_eq|].
  intros r [Hr _]%elem_of_filter_rows_in.
  apply elem_of_filter_rows in Hr as [_ Hr].
  apply af_pass_segregating in Hr as [(c1 & Hc1 & H1) (c2 & Hc2 & H2)].
  split; [split; eauto|]. split; [|split].
  - intros E. rewrite E in Hc1. by apply elem_of_nil in Hc1.
  - intros HF. rewrite Forall_forall in HF. specialize (HF c1 Hc1). lia.
  - intros HF. rewrite Forall_forall in HF. specialize (HF c2 Hc2). lia.
Qed.

End LdPruneMore.

Lemma ld_prune_filter_only_removes_rows_witness :
  exists mt kept out,
    Toy.store_ld !! "intersect.mt" = Some (MatrixFile mt)
    /\ Toy.ld_prune (hl.filter_rows mt af_pass) 0.8%Q 500000%Z = inr kept
    /\ (ld_prune_filter Toy.ld_prune "intersect.mt" "prune.mt" false Toy.store_ld).2
         !! "prune.mt" = Some (MatrixFile out)
    /\ sample_filters_fields out = sample_filters_fields mt
    /\ cols out = cols mt
    /\ sublist (rows out) (rows mt)
    /\ forall r, r ∈ rows out -> row_key r ∈ kept.
Proof.
  apply (ld_prune_filter_only_removes_rows Toy.ld_prune "intersect.mt" "prune.mt"
           false Toy.store_ld).
  vm_compute. reflexivity.
Defined.

Lemma ld_prune_filter_segregating_witness :
  exists out,
    (ld_prune_filter Toy.ld_prune "intersect.mt" "prune.mt" false Toy.store_ld).2
      !! "prune.mt" = Some (MatrixFile out)
    /\ forall r, r ∈ rows out ->
         segregating r
         /\ hl.called (GT r) <> []
         /\ ~ Forall (fun c => n_alt_alleles c = 0%Z) (hl.called (GT r))
         /\ ~ Forall (fun c => n_alt_alleles c = 2%Z) (hl.called (GT r)).
Proof.
  apply (ld_prune_filter_segregating Toy.ld_prune "intersect.mt" "prune.mt" false
           Toy.store_ld).
  vm_compute. reflexivity.
Defined.

(** ** More on the PCA stage *)

Lemma traverse_index_seq {A} (xs : list A) a n :
  (a + n <= length xs)%nat ->
  traverse (fun i => hl.index xs (i - 1)) (seq (S a) n) = inr (take n (drop a xs)).
Proof.
  revert a. induction n as [|n IH]; intros a Hlen; [reflexivity|].
  cbn [seq traverse].
  replace (S a - 1)%nat with a by lia.
  destruct (lookup_lt_is_Some_2 xs a) as [x Hx]; [lia|].
  unfold hl.index at 1. rewrite Hx. cbn [and_then].
  rewrite (IH (S a)) by lia. cbn [and_then].
  rewrite (drop_S _ _ _ Hx). reflexivity.
Qed.

Lemma traverse_index_short {A} (xs : list A) a n :
  (a <= length xs)%nat -> (length xs < a + n)%nat ->
  traverse (fun i => hl.index xs (i - 1)) (seq (S a) n)
  = inl (IndexOutOfBounds (length xs) (length xs)).
Proof.
  revert a. induction n as [|n IH]; intros a Ha Hlen; [lia|].
  cbn [seq traverse].
  replace (S a - 1)%nat with a by lia.
  unfold hl.index at 1.
  destruct (xs !! a) as [x|] eqn:Hx; cbn [and_then].
  - apply lookup_lt_Some in Hx. rewrite (IH (S a)) by lia. reflexivity.
  - apply lookup_ge_None in Hx. by replace a with (length xs) by lia.
Qed.

(** X14. The twenty PC columns are the first twenty components of the
    vector: a longer vector is cut, and a vector of [n < 20] components
    is an index error at position [n]. *)
Theorem pc_values_bounds (xs : list Q) :
  ((20 <= length xs)%nat -> pc_values xs = inr (take 20 xs))
  /\ ((length xs < 20)%nat ->
      pc_values xs = inl (IndexOutOfBounds (length xs) (length xs))).
Proof.
  unfold pc_values. split; intros H.
  - rewrite (traverse_index_seq xs 0 20) by lia. by rewrite drop_0.
  - apply (traverse_index_short xs 0 20); lia.
Qed.

Lemma traverse_first_error {A B} (f : A -> HailError + B) xs :
  Exists (fun x => exists e, f x = inl e) xs ->
  exists x e, x ∈ xs /\ f x = inl e /\ traverse f xs = inl e.
Proof.
  induction 1 as [x l (e & He)|x l _ IH].
  - exists x, e. split; [apply list_elem_of_here|]. split; [done|].
    simpl. by rewrite He.
  - destruct (f x) as [e|y] eqn:Ef.
    + exists x, e. split; [apply list_elem_of_here|]. split; [done|].
      simpl. by rewrite Ef.
    + destruct IH as (x' & e & Hin & He & Ht).
      exists x', e. split; [by apply list_elem_of_further|]. split; [done|].
      simpl. rewrite Ef. simpl. by rewrite Ht.
Qed.

Section PcaMore.

Variable engine : MatrixTable -> nat -> HailError + PcaOutput.

(** X15. When the engine returns a scores vector of fewer than twenty
    components, the stage run with the overwrite flag fails with an
    index error at the length of such a vector, after the scores table
    has been written and before anything else is. *)
Theorem run_pca_short_scores prune_out prefix st mt evals sc ld :
  st !! prune_out = Some (MatrixFile mt) ->
  engine mt 20%nat = inr (evals, sc, ld) ->
  Exists (fun r => (length (scores r) < 20)%nat) sc ->
  exists r,
    r ∈ sc /\ (length (scores r) < 20)%nat
    /\ run_pca engine prune_out prefix true st
       = (inl (IndexOutOfBounds (length (scores r)) (length (scores r))),
          <[prefix ++ "scores.ht" := ScoresFile sc]> st).
Proof.
  intros Hmt He Hex.
  destruct (traverse_first_error
              (fun r => and_then (pc_values (scores r))
                          (fun pcs => inr (CStr (score_s r) :: map CFloat pcs))) sc)
    as (r & e & Hin & Hr & Ht).
  { eapply Exists_impl; [exact Hex|]. intros r Hr. simpl.
    destruct (pc_values_bounds (scores r)) as [_ Hs]. rewrite (Hs Hr). simpl. eauto. }
  assert ((length (scores r) < 20)%nat
          /\ e = IndexOutOfBounds (length (scores r)) (length (scores r))) as [Hlen ->].
  { destruct (decide (length (scores r) < 20)%nat) as [Hlt|Hge].
    - destruct (pc_values_bounds (scores r)) as [_ Hs]. rewrite (Hs Hlt) in Hr.
      simpl in Hr. by injection Hr as <-.
    - destruct (pc_values_bounds (scores r)) as [Hs _]. rewrite Hs in Hr by lia.
      discriminate. }
  exists r. split; [done|]. split; [done|].
  unfold run_pca.
  rewrite (bind_run _ _ _ _ _ (read_matrix_table_run _ _ _ Hmt)).
  unfold bind at 1. unfold lift. rewrite He.
  unfold bind at 1. rewrite write_overwrite.
  unfold bind at 1. unfold hl.read_scores at 1. rewrite lookup_insert_eq.
  unfold bind at 1. unfold scores_txt. rewrite Ht. reflexivity.
Qed.

End PcaMore.

Lemma find_key (l : list Row) k :
  match List.find (fun r => bool_decide (row_key r = k)) l with
  | Some r => r ∈ l /\ row_key r = k
  | None => k ∉ map row_key l
  end.
Proof.
  induction l as [|r l IH]; simpl; [apply not_elem_of_nil|].
  destruct (bool_decide (row_key r = k)) eqn:E.
  - apply bool_decide_eq_true in E. split; [apply list_elem_of_here | done].
  - apply bool_decide_eq_false in E.
    destruct (List.find _ l) as [r'|].
    + destruct IH. split; [by apply list_elem_of_further | done].
    + rewrite not_elem_of_cons. done.
Qed.

(** X16. The [pca_af] attached to a loading is the one of the matrix
    row of the same key: when the keys of the matrix are pairwise
    distinct, the loading of a row gets that row's value, and a loading
    whose key is not in the matrix gets a missing value. *)
Theorem annotate_pca_af_lookup mt (l : list Q) :
  (forall r, NoDup (map row_key (rows mt)) -> r ∈ rows mt ->
             pca_af (annotate_pca_af mt (row_key r, l)) = row_pca_af r)
  /\ (forall k, k ∉ map row_key (rows mt) ->
                pca_af (annotate_pca_af mt (k, l)) = None).
Proof.
  split.
  - intros r Hnd Hr. unfold annotate_pca_af. simpl.
    pose proof (find_key (rows mt) (row_key r)) as Hf.
    destruct (List.find _ (rows mt)) as [r'|].
    + destruct Hf as [Hin Hk]. simpl. f_equal.
      apply list_elem_of_lookup in Hin as [i Hi].
      apply list_elem_of_lookup in Hr as [j Hj].
      assert (i = j) as ->.
      { eapply NoDup_lookup; [exact Hnd| |].
        - rewrite list_lookup_fmap, Hi. reflexivity.
        - rewrite list_lookup_fmap, Hj. simpl. by rewrite Hk. }
      congruence.
    + exfalso. apply Hf. apply list_elem_of_fmap. eauto.
  - intros k Hk. unfold annotate_pca_af. simpl.
    pose proof (find_key (rows mt) k) as Hf.
    destruct (List.find _ (rows mt)) as [r'|]; [|reflexivity].
    destruct Hf as [Hin Hk']. exfalso. apply Hk. apply list_elem_of_fmap. eauto.
Qed.

Lemma pc_values_bounds_witness :
  pc_values (replicate 25 1%Q) = inr (replicate 20 1%Q)
  /\ pc_values (replicate 3 0%Q) = inl (IndexOutOfBounds 3 3).
Proof.
  split.
  - apply (proj1 (pc_values_bounds (replicate 25 1%Q))). simpl. lia.
  - apply (proj2 (pc_values_bounds (replicate 3 0%Q))). simpl. lia.
Defined.

Lemma run_pca_short_scores_witness :
  exists r,
    r ∈ [mkScore "A" (replicate 20 0%Q); mkScore "B" (replicate 3 0%Q)]
    /\ (length (scores r) < 20)%nat
    /\ run_pca ToyRun.pca_short "prune.mt" "pca/" true Toy.store_pca
       = (inl (IndexOutOfBounds (length (scores r)) (length (scores r))),
          <["pca/" ++ "scores.ht" :=
              ScoresFile [mkScore "A" (replicate 20 0%Q); mkScore "B" (replicate 3 0%Q)]]>
            Toy.store_pca).
Proof.
  apply (run_pca_short_scores ToyRun.pca_short "prune.mt" "pca/" Toy.store_pca
           Toy.cohort (replicate 20 1%Q) _ []).
  - reflexivity.
  - reflexivity.
  - apply Exists_cons_tl, Exists_cons_hd. simpl. lia.
Defined.

Lemma annotate_pca_af_lookup_witness :
  pca_af (annotate_pca_af Toy.pruned (row_key Toy.v4, [])) = row_pca_af Toy.v4
  /\ pca_af (annotate_pca_af Toy.pruned (row_key Toy.v3, [])) = None.
Proof.
  destruct (annotate_pca_af_lookup Toy.pruned []) as [H1 H2]. split.
  - apply H1.
    + apply NoDup_cons. split; [|apply NoDup_singleton].
      intros H%list_elem_of_singleton. discriminate H.
    + apply list_elem_of_further, list_elem_of_here.
  - apply H2. simpl. rewrite !not_elem_of_cons.
    repeat split; try discriminate. apply not_elem_of_nil.
Defined.

(** ** The whole pipeline *)

Section MainFacts.

Variable chain : ReferenceGenome -> ReferenceGenome -> string -> Z -> option (string * Z).
Variable ld_prune : MatrixTable -> Q -> Z -> HailError + list RowKey.
Variable engine : MatrixTable -> nat -> HailError + PcaOutput.
Variable import_snp_list : string -> HailError + list SnpEntry.

Lemma intersect_filter_cols mt snp_list label :
  cols (intersect_filter chain mt snp_list label) = cols mt.
Proof.
  unfold intersect_filter.
  destruct (String.eqb (PyStr.lower label) "grch38"); [reflexivity|].
  destruct (String.eqb (PyStr.lower label) "grch37"); reflexivity.
Qed.

Lemma intersect_filter_rows mt snp_list label rg r :
  recognised label rg ->
  r ∈ rows (intersect_filter chain mt snp_list label) ->
  r ∈ rows mt /\ exists e, e ∈ snp_list /\ panel_key chain rg e (row_key r).
Proof.
  intros Hl Hr. destruct rg; simpl in Hl.
  - rewrite (intersect_filter_grch37 _ _ _ _ Hl) in Hr.
    apply elem_of_filter_rows_in in Hr as [Hr Hk]. split; [done|].
    by apply (elem_of_panel_keys chain snp_list GRCh37).
  - rewrite (intersect_filter_grch38 _ _ _ _ Hl) in Hr.
    apply elem_of_filter_rows_in in Hr as [Hr Hk]. split; [done|].
    by apply (elem_of_panel_keys chain snp_list GRCh38).
Qed.

Lemma intersect_target_ref_overwrite_inr ref_mt_filt snp_list label out st st' :
  intersect_target_ref chain ref_mt_filt snp_list label out true st = (inr tt, st') ->
  exists mt,
    st !! ref_mt_filt = Some (MatrixFile mt)
    /\ st' = <[out := MatrixFile (intersect_filter chain mt snp_list label)]> st.
Proof.
  unfold intersect_target_ref, repartition.
  intros (mt & s0 & [Hmt ->]%read_matrix_table_inr & H)%bind_inr.
  apply bind_inr in H as (m & s1 & Hck & [= <-]).
  apply checkpoint_inr in Hck as [([=] & _)|(_ & _ & _ & ->)].
  eauto.
Qed.

(** X17. A run of [main] with the QC, intersection and pruning
    stages selected and the overwrite flag set chains the stages through
    their files.  When it succeeds under a recognised label, the pruned
    matrix holds only samples of the unrelated set that are not
    outliers, and only variants that passed the variant filters, are on
    the SNP list and have an alternate allele frequency strictly
    between 0.001 and 0.999 among those samples. *)
Theorem main_qc_intersect_prune a st st' mt_unrel t ids snp_list rg :
  args.run_ref_filtering a = true ->
  args.run_intersection a = true ->
  args.run_ld_prune_filter a = true ->
  args.run_pca a = false ->
  args.overwrite a = true ->
  st !! args.unrel_mt a = Some (MatrixFile mt_unrel) ->
  st !! args.outliers a = Some (TextFile t) ->
  hl.key_by_str "s" t = inr ids ->
  import_snp_list (args.snp_list a) = inr snp_list ->
  recognised (args.grch37_or_grch38 a) rg ->
  main chain ld_prune engine import_snp_list a st = (inr tt, st') ->
  exists out,
    st' !! args.prune_out a = Some (MatrixFile out)
    /\ (forall c, c ∈ cols out -> (s c ∈ map s (cols mt_unrel)) /\ (s c ∉ ids))
    /\ (forall r, r ∈ rows out ->
          filters r = Some ∅
          /\ (exists e, e ∈ snp_list /\ panel_key chain rg e (row_key r))
          /\ exists p, row_pca_af r = Some p /\ (0.001 < p)%Q /\ (p < 0.999)%Q).
Proof.
  intros F1 F2 F3 F4 Fo Hun Ht Hids Hsnp Hl.
  unfold main. rewrite F1, F2, F3, F4, Fo. unfold when.
  intros (u1 & st1 & H1 & H)%bind_inr.
  apply bind_inr in H as (u2 & st2 & H2 & H).
  apply bind_inr in H as (u3 & st3 & H3 & [= <-]).
  destruct u1, u2, u3.
  (* the QC stage *)
  pose proof H1 as H1'.
  apply ref_filtering_inr in H1'
    as (mt & mt_pass & st0 & mt_unrel0 & t0 & ids0 & Hmt & Hck & Hun0 & Ht0 & Hids0 & _ & ->).
  assert (st0 !! args.unrel_mt a = st !! args.unrel_mt a
          /\ st0 !! args.outliers a = st !! args.outliers a) as [Eun Eout].
  { apply checkpoint_inr in Hck as [(_ & _ & ->)|(Hnone & _ & _ & ->)]; [done|].
    destruct Hnone as [Hf|Hnone]; [discriminate|].
    split; apply lookup_insert_ne; intros E; rewrite E in Hnone; congruence. }
  rewrite Eun, Hun in Hun0. injection Hun0 as <-.
  rewrite Eout, Ht in Ht0. injection Ht0 as <-.
  rewrite Hids in Hids0. injection Hids0 as <-.
  (* the intersection stage *)
  apply bind_inr in H2 as (snp & s2 & [Hsnp' ->]%lift_inr & H2).
  rewrite Hsnp in Hsnp'. injection Hsnp' as <-.
  apply intersect_target_ref_overwrite_inr in H2 as (m1 & Hm1 & ->).
  rewrite lookup_insert_eq in Hm1. injection Hm1 as <-.
  (* the pruning stage *)
  apply ld_prune_filter_inr in H3 as (m2 & kept & Hm2 & Hk & _ & ->).
  rewrite lookup_insert_eq in Hm2. injection Hm2 as <-.
  eexists. split; [apply lookup_insert_eq|].
  split.
  - intros c Hc. unfold filter_rows_in in Hc.
    rewrite !filter_rows_cols, intersect_filter_cols in Hc.
    apply elem_of_filter_cols in Hc as [Hc Hno].
    apply elem_of_filter_cols in Hc as [_ Hu].
    unfold not_outlier in Hno. unfold is_unrelated in Hu.
    injection Hno as Hno%bool_decide_eq_true.
    injection Hu as Hu%bool_decide_eq_true. done.
  - intros r [Hr _]%elem_of_filter_rows_in.
    apply elem_of_filter_rows in Hr as [Hr Haf].
    apply (intersect_filter_rows _ _ _ rg _ Hl) in Hr as [Hr Hpanel].
    split; [|split; [exact Hpanel|]].
    + apply filter_cols_rows in Hr as (r1 & Hr1 & _ & _ & -> & _).
      apply filter_cols_rows in Hr1 as (r0 & Hr0 & _ & _ & -> & _).
      apply elem_of_filter_rows in Hr0 as [_ Hr0]. by apply variant_pass_true.
    + apply af_pass_frequency in Haf as (p & Hp & Hlo & Hhi & _). eauto.
Qed.

End MainFacts.

Example main_scenario :
  (main Toy.chain Toy.ld_prune Toy.hwe_normalized_pca ToyRun.import_snp_list
     ToyRun.cli ToyRun.store).2 !! "prune.mt"
  = Some (MatrixFile
            (mkMT Toy.fields (map (fun n => mkCol n (Some ∅)) ["A"; "B"; "C"; "D"])
               [mkRow (mkLocus "chr1" 1065 GRCh38) ["A"; "G"] (Some ∅)
                  [Toy.het; Toy.hom_ref; Toy.hom_var; Toy.het]])).
Proof. vm_compute. reflexivity. Qed.

Lemma main_qc_intersect_prune_witness :
  exists out,
    (main Toy.chain Toy.ld_prune Toy.hwe_normalized_pca ToyRun.import_snp_list
       ToyRun.cli ToyRun.store).2 !! "prune.mt" = Some (MatrixFile out)
    /\ (forall c, c ∈ cols out -> (s c ∈ map s (cols ToyRun.unrel)) /\ (s c ∉ ["E"]))
    /\ (forall r, r ∈ rows out ->
          filters r = Some ∅
          /\ (exists e, e ∈ Toy.snp_list38 /\ panel_key Toy.chain GRCh38 e (row_key r))
          /\ exists p, row_pca_af r = Some p /\ (0.001 < p)%Q /\ (p < 0.999)%Q).
Proof.
  apply (main_qc_intersect_prune Toy.chain Toy.ld_prune Toy.hwe_normalized_pca
           ToyRun.import_snp_list ToyRun.cli ToyRun.store _ ToyRun.unrel
           ToyRun.outliers ["E"] Toy.snp_list38 GRCh38);
    vm_compute; reflexivity.
Defined.

(** ** The pruner of the specification *)







Lemma length_by_position l : length (LdPruner.by_position l) = length l.
Proof.
  assert (forall r l, length (LdPruner.insert_by_position r l) = S (length l)) as Hi.
  { intros r l0. induction l0 as [|y l0 IH]; simpl; [reflexivity|].
    destruct (position (locus r) <=? position (locus y))%Z; simpl; auto. }
  unfold LdPruner.by_position. induction l as [|y l IH]; simpl; [reflexivity|].
  by rewrite Hi, IH.
Qed.



(** With one round per candidate the selection is maximal: a
    candidate that is not retained is in conflict with a retained
    one. *)
Lemma select_maximal fuel threshold window l x :
  (length l <= fuel)%nat -> x ∈ l ->
  x ∈ LdPruner.select fuel threshold window l
  \/ exists k, k ∈ LdPruner.select fuel threshold window l
               /\ LdPruner.conflict threshold window k x = true.
Proof.
  revert l. induction fuel as [|fuel IH]; intros [|r rest] Hlen Hx;
    try (by apply elem_of_nil in Hx); simpl in Hlen; [lia|].
  simpl. apply elem_of_cons in Hx as [->|Hx]; [left; apply list_elem_of_here|].
  destruct (LdPruner.conflict threshold window r x) eqn:Ec.
  - right. exists r. split; [apply list_elem_of_here | done].
  - destruct (IH (List.filter (fun y => negb (LdPruner.conflict threshold window r y))
                    rest)) as [Hin|(k & Hk & Hc)].
    + pose proof (List.filter_length_le
                    (fun y => negb (LdPruner.conflict threshold window r y)) rest). lia.
    + apply elem_of_List_filter. split; [done | by rewrite Ec].
    + left. by apply list_elem_of_further.
    + right. exists k. split; [by apply list_elem_of_further | done].
Qed.




Example spec_pruner_r2_values :
  (LdPruner.r2 (GT Toy.v1) (GT Toy.v5) == 1)%Q
  /\ (LdPruner.r2 (GT Toy.v1) (GT Toy.v4) == 1 # 4)%Q
  /\ LdPruner.conflict 0.8%Q 500000%Z Toy.v1 Toy.v5 = true
  /\ LdPruner.conflict 0.8%Q 500000%Z Toy.v1 Toy.v4 = false.
Proof. repeat split; vm_compute; reflexivity. Qed.

Example spec_pruner_scenario :
  ld_prune_filter LdPruner.ld_prune "intersect.mt" "prune.mt" false Toy.store_ld
  = (inr tt, <["prune.mt" := MatrixFile Toy.pruned]> Toy.store_ld).
Proof. vm_compute. reflexivity. Qed.


(** ** The exported tables *)








